(** * Spectrum analysis pipeline of mycroft-gui: FFT, chunk scheduler, shaping

    A shallow embedding of
      - [thirdparty/fft.cpp]      (recursive radix-2 transform and its inverse),
      - [thirdparty/fftcalc.cpp]  (BufferProcessor and FFTCalc),
      - [mediaservice.cpp]        (the spectrum decimation of the media service),
    together with the properties of the pipeline that are proved about it.

    Conventions.
      - C++ [int] values are modelled in [Z]; operations that are undefined in
        C++ (division by zero, reading a member that was never initialised,
        indexing outside a container) end the computation with a [fault].
      - [double] and [float] are the IEEE 754 binary64 and binary32 formats,
        modelled with the executable specification [SpecFloat] of the standard
        library (round to nearest even).  Functions of libm and of
        [std::complex] whose results are not fixed by IEEE 754 are fields of
        the record [Libm]; every definition that calls one takes it as a
        parameter.
      - The round-trip law of the transform is proved for the same generic
        [fft]/[ifft] instantiated with exact complex numbers over [R]. *)

From Stdlib Require Import Reals Lra.
From Stdlib Require Import ZArith List Bool Lia Arith.
From Stdlib Require Import SpecFloat.
From Equations Require Import Equations.
Import ListNotations.

Set Implicit Arguments.
Local Open Scope Z_scope.

(* ===================================================================== *)
(** * Outcomes of C++ computations                                        *)
(* ===================================================================== *)

Inductive fault : Type :=
| DivisionByZero       (* integer division by zero *)
| IndeterminateRead    (* read of a member the constructor left uninitialised *)
| IndexOutOfRange      (* operator[] outside the container *)
| FloatToIntRange.     (* float -> int conversion of a NaN, an infinity or a
                          value outside the range of int *)

Inductive outcome (A : Type) : Type :=
| Ok (a : A)
| Fault (f : fault).
Arguments Ok {A} a.
Arguments Fault {A} f.

Definition bind {A B} (m : outcome A) (k : A -> outcome B) : outcome B :=
  match m with
  | Ok a => k a
  | Fault f => Fault f
  end.

Notation "x <- m ;; k" := (bind m (fun x => k))
  (at level 61, m at next level, right associativity).

(** A member of built-in type that a constructor does not initialise holds an
    indeterminate value; reading it is undefined. *)
Definition read_member {A} (m : option A) : outcome A :=
  match m with
  | Some a => Ok a
  | None => Fault IndeterminateRead
  end.

(** [for (k = lo; k < hi; k++)] as the list of the values of [k]. *)
Definition zrange (lo hi : Z) : list Z :=
  map (fun k => lo + Z.of_nat k) (seq 0 (Z.to_nat (hi - lo))).

Fixpoint mapM {A B} (f : A -> outcome B) (l : list A) : outcome (list B) :=
  match l with
  | [] => Ok []
  | a :: l' => b <- f a ;; bs <- mapM f l' ;; Ok (b :: bs)
  end.

(** Bounds of the C++ type [int]. *)
Definition INT_MIN : Z := - 2 ^ 31.
Definition INT_MAX : Z := 2 ^ 31 - 1.

(** [n / d] on [int]: truncation towards zero, undefined for [d = 0]. *)
Definition int_div (n d : Z) : outcome Z :=
  if d =? 0 then Fault DivisionByZero else Ok (Z.quot n d).

(* ===================================================================== *)
(** * IEEE 754 binary64 and binary32                                      *)
(* ===================================================================== *)

(** The operations shared by the two formats. [SFltb] is the C++ [<]: it is
    false as soon as one operand is a NaN. *)
Module IEEE.

Definition is_nan (x : spec_float) : bool :=
  match x with S754_nan => true | _ => false end.


(** The integer [m] and exponent [e] of a finite value [m * 2^e]. *)
Definition Zmantissa (x : spec_float) : Z :=
  match x with
  | S754_finite s m _ => cond_Zopp s (Zpos m)
  | _ => 0
  end.

Definition exponent (x : spec_float) : Z :=
  match x with
  | S754_finite _ _ e => e
  | _ => 0
  end.

(** [floor] and [ceil] of a finite value, as integers. *)
Definition floorZ (x : spec_float) : Z :=
  let m := Zmantissa x in
  let e := exponent x in
  if 0 <=? e then m * 2 ^ e else m / 2 ^ (- e).

Definition ceilZ (x : spec_float) : Z :=
  let m := Zmantissa x in
  let e := exponent x in
  if 0 <=? e then m * 2 ^ e else - ((- m) / 2 ^ (- e)).

(** Conversion of a floating value to [int]: the fractional part is
    discarded; undefined when the truncated value is not an [int]. *)
Definition to_int (x : spec_float) : outcome Z :=
  match x with
  | S754_zero _ => Ok 0
  | S754_finite s m e =>
      let t := Z.quot (cond_Zopp s (Zpos m) * 2 ^ (Z.max e 0)) (2 ^ (Z.max (- e) 0)) in
      if (INT_MIN <=? t) && (t <=? INT_MAX) then Ok t else Fault FloatToIntRange
  | _ => Fault FloatToIntRange
  end.

Section Format.
Variables prec emax : Z.

(** Conversion of an integer (exact as long as it has at most [prec]
    bits, rounded otherwise). *)
Definition of_Z (n : Z) : spec_float := binary_normalize prec emax n 0 false.

(** Conversion from another binary format: rounding of the same value. *)
Definition of_float (x : spec_float) : spec_float :=
  match x with
  | S754_finite s m e => binary_normalize prec emax (cond_Zopp s (Zpos m)) e s
  | _ => x
  end.

(** The value nearest to the positive fraction [p / q]: how a decimal
    literal such as [1e-2] is read. *)
Definition of_ratio (p q : positive) : spec_float :=
  let '(m, e, l) := SFdiv_core_binary prec emax (Zpos p) 0 (Zpos q) 0 in
  binary_round_aux prec emax false m e l.

(** [ceilf] and [floorf]: the integer is exactly representable whenever the
    argument is finite. *)
Definition ceil (x : spec_float) : spec_float :=
  match x with
  | S754_finite s _ _ => binary_normalize prec emax (ceilZ x) 0 s
  | _ => x
  end.

Definition floor (x : spec_float) : spec_float :=
  match x with
  | S754_finite s _ _ => binary_normalize prec emax (floorZ x) 0 s
  | _ => x
  end.
End Format.

End IEEE.

Definition double : Type := spec_float.
Definition float : Type := spec_float.

(** binary64 *)
Module D.
Definition prec : Z := 53.
Definition emax : Z := 1024.
Definition add : double -> double -> double := SFadd prec emax.
Definition sub : double -> double -> double := SFsub prec emax.
Definition mul : double -> double -> double := SFmul prec emax.
Definition div : double -> double -> double := SFdiv prec emax.
Definition sqrt : double -> double := SFsqrt prec emax.
Definition of_int : Z -> double := IEEE.of_Z prec emax.
Definition of_float : float -> double := IEEE.of_float prec emax.
Definition literal : positive -> positive -> double := IEEE.of_ratio prec emax.
Definition zero : double := S754_zero false.
Definition one : double := of_int 1.
End D.

(** binary32 *)
Module F.
Definition prec : Z := 24.
Definition emax : Z := 128.
Definition add : float -> float -> float := SFadd prec emax.
Definition sub : float -> float -> float := SFsub prec emax.
Definition mul : float -> float -> float := SFmul prec emax.
Definition div : float -> float -> float := SFdiv prec emax.
Definition of_int : Z -> float := IEEE.of_Z prec emax.
Definition of_double : double -> float := IEEE.of_float prec emax.
Definition literal : positive -> positive -> float := IEEE.of_ratio prec emax.
Definition ceilf : float -> float := IEEE.ceil prec emax.
Definition floorf : float -> float := IEEE.floor prec emax.
Definition zero : float := S754_zero false.
Definition one : float := of_int 1.
End F.

(** [const double PI = 3.141592653589793238460;] (fft.h) *)
Definition PI : double := D.literal 3141592653589793238460 (10 ^ 21).

(** [#define SPECSIZE 512] (fftcalc.h) *)
Definition SPECSIZE : Z := 512.

(** [#define CLAMP(a,min,max) ((a) < (min) ? (min) : (a) > (max) ? (max) : (a))] *)
Definition CLAMP (a min max : spec_float) : spec_float :=
  if SFltb a min then min else if SFltb max a then max else a.

(** Qt's [qMax(a, b)] is [(a < b) ? b : a] and [qMin(a, b)] is [(a < b) ? a : b]. *)
Definition qMax (a b : spec_float) : spec_float := if SFltb a b then b else a.
Definition qMin (a b : spec_float) : spec_float := if SFltb a b then a else b.

(* ===================================================================== *)
(** * fft.cpp: the transform, generic in the complex arithmetic           *)
(* ===================================================================== *)

(** What [fft] and [ifft] use of [std::complex<double>]. *)
Class ComplexOps (C : Type) : Type := {
  czero : C;                     (* Complex() *)
  cadd : C -> C -> C;            (* operator+ *)
  csub : C -> C -> C;            (* operator- *)
  cmul : C -> C -> C;            (* operator* *)
  cdiv : C -> C -> C;            (* operator/ *)
  cconj : C -> C;                (* std::conj *)
  unit_polar : nat -> nat -> C;  (* std::polar(1.0, -2 * PI * k / N) *)
  of_size : nat -> C             (* size_t converted to Complex *)
}.

Section Transform.
Context {C : Type} {ops : ComplexOps C}.

(** [x[std::slice(start, size, stride)]] *)
Definition slice (start size stride : nat) (x : list C) : list C :=
  map (fun j => nth (start + j * stride)%nat x czero) (seq 0 size).

(** The loop of [fft]: [x[k] = even[k] + t; x[k+N/2] = even[k] - t] for
    [k < N/2]; an element beyond [2 * (N/2)] (odd [N]) keeps its value. *)
Definition butterflies (N : nat) (even odd x : list C) : list C :=
  let t k := cmul (unit_polar k N) (nth k odd czero) in
  map (fun k => cadd (nth k even czero) (t k)) (seq 0 (N / 2))
  ++ map (fun k => csub (nth k even czero) (t k)) (seq 0 (N / 2))
  ++ skipn (2 * (N / 2)) x.

Equations? fft (x : list C) : list C by wf (length x) lt :=
  fft x with le_lt_dec (length x) 1 := {
    | left _ => x
    | right _ =>
        butterflies (length x)
          (fft (slice 0 (length x / 2) 2 x))
          (fft (slice 1 (length x / 2) 2 x))
          x }.
Proof.
  all: unfold slice; rewrite length_map, length_seq;
    apply (Nat.div_lt (length x) 2); lia.
Qed.


End Transform.

(* ===================================================================== *)
(** * The C and C++ library functions the pipeline calls                  *)
(* ===================================================================== *)

(** [typedef std::complex<double> Complex;] *)
Definition Complex : Type := (double * double)%type.

(** Results of these functions are not determined by IEEE 754 (accuracy of
    the transcendental functions, treatment of NaN and infinities by the
    complex product and quotient), so they are parameters of the model. *)
Record Libm : Type := {
  cos : double -> double;
  polar : double -> double -> Complex;       (* std::polar(rho, theta) *)
  c_abs : Complex -> double;                 (* std::abs(Complex) *)
  c_mul : Complex -> Complex -> Complex;
  c_div : Complex -> Complex -> Complex;
  powf : float -> float -> float;
  log10f : float -> float
}.

#[export] Instance Complex_ops (L : Libm) : ComplexOps Complex := {|
  czero := (D.zero, D.zero);
  cadd a b := (D.add (fst a) (fst b), D.add (snd a) (snd b));
  csub a b := (D.sub (fst a) (fst b), D.sub (snd a) (snd b));
  cmul := c_mul L;
  cdiv := c_div L;
  cconj a := (fst a, SFopp (snd a));
  unit_polar k N :=
    polar L D.one
      (D.div (D.mul (D.mul (D.of_int (-2)) PI) (D.of_int (Z.of_nat k)))
             (D.of_int (Z.of_nat N)));
  of_size n := (D.of_int (Z.of_nat n), D.zero)
|}.

(* ===================================================================== *)
(** * fftcalc.cpp: BufferProcessor                                        *)
(* ===================================================================== *)

(** [QVector::operator[]] *)
Definition at_index {A} (v : list A) (i : Z) : outcome A :=
  if (0 <=? i) && (i <? Z.of_nat (length v)) then
    match nth_error v (Z.to_nat i) with
    | Some a => Ok a
    | None => Fault IndexOutOfRange
    end
  else Fault IndexOutOfRange.

(** The signals of BufferProcessor. *)
Inductive signal : Type :=
| calculatedSpectrum (spectrum : list double)
| allDone.

(** The members of BufferProcessor.  [complexFrame] and [spectrum] are
    overwritten in full by every [run] before they are read, so they are
    local to [run] here.  [timer] is the interval of the running QTimer
    ([None] when it is stopped).  [numberOfChunks], [interval] and [pass]
    are [None] as long as nothing has been assigned to them. *)
Record BufferProcessor : Type := {
  array : list double;
  window : list double;
  logscale : list double;
  compressed : bool;
  running : bool;
  numberOfChunks : option Z;
  interval : option Z;
  pass : option Z;
  timer : option Z
}.

(** [qreal SpectrumAnalyserMultiplier = 1e-2;] *)
Definition SpectrumAnalyserMultiplier : double := D.literal 1 100.

(** [void BufferProcessor::processBuffer(QVector<double> _array, int duration)] *)
Definition processBuffer (s : BufferProcessor) (_array : list double)
    (duration : Z) : outcome BufferProcessor :=
  let numberOfChunks' :=
    if Z.of_nat (length (array s)) =? Z.of_nat (length _array)
    then numberOfChunks s
    else Some (Z.of_nat (length _array) / SPECSIZE) in
  n <- read_member numberOfChunks' ;;
  q <- int_div duration n ;;
  let interval' := if q <? 1 then 1 else q in
  Ok {| array := _array;
        window := window s;
        logscale := logscale s;
        compressed := compressed s;
        running := running s;
        numberOfChunks := Some n;
        interval := Some interval';
        pass := Some 0;
        timer := Some interval' |}.

(** [complexFrame[i] = Complex(window[i]*array[i+pass*SPECSIZE],0);] *)
Definition load_frame (window arr : list double) (p : Z) : outcome (list Complex) :=
  mapM (fun i =>
          w <- at_index window i ;;
          a <- at_index arr (i + p * SPECSIZE) ;;
          Ok (D.mul w a, D.zero))
       (zrange 0 SPECSIZE).

(** [sum += complexFrame[j].real() * w] (or without the factor [w]), on a
    [float sum]; the second component records the indices of
    [complexFrame] read so far. *)
Definition accumulate (complexFrame : list Complex) (j : Z) (w : option double)
    (st : float * list Z) : outcome (float * list Z) :=
  c <- at_index complexFrame j ;;
  let term := match w with Some w => D.mul (fst c) w | None => fst c end in
  Ok (F.of_double (D.add (D.of_float (fst st)) term), snd st ++ [j]).

(** One iteration of the loop of the compressed mode, up to the final value
    of [sum]. *)
Definition bucket (logscale : list double) (complexFrame : list Complex) (i : Z)
    : outcome (float * list Z) :=
  lo <- at_index logscale i ;;
  hi <- at_index logscale (i + 1) ;;
  a <- IEEE.to_int (F.ceilf (F.of_double lo)) ;;
  b <- IEEE.to_int (F.floorf (F.of_double hi)) ;;
  let sum := (F.of_int 0, []) in
  if b <? a then
    accumulate complexFrame b (Some (D.sub hi lo)) sum
  else
    sum <- (if a >? 0
            then accumulate complexFrame (a - 1) (Some (D.sub (D.of_int a) lo)) sum
            else Ok sum) ;;
    sum <- fold_left (fun acc k => s <- acc ;; accumulate complexFrame k None s)
                     (zrange a b) (Ok sum) ;;
    if b <? SPECSIZE / 2
    then accumulate complexFrame b (Some (D.sub hi (D.of_int b))) sum
    else Ok sum.

(** [spectrum[i] = CLAMP(complexFrame[i].real()*100,0,1);] *)
Definition linear (complexFrame : list Complex) (i : Z) : outcome double :=
  c <- at_index complexFrame i ;;
  Ok (CLAMP (D.mul (fst c) (D.of_int 100)) (D.of_int 0) (D.of_int 1)).

Section Processor.
Variable L : Libm.

(** [window[i] = 0.5 * (1 - cos((2*PI*i)/(SPECSIZE)));] for [i < SPECSIZE] *)
Definition window_table : list double :=
  map (fun i =>
         D.mul (D.literal 1 2)
           (D.sub (D.of_int 1)
              (cos L (D.div (D.mul (D.mul (D.of_int 2) PI) (D.of_int i))
                            (D.of_int SPECSIZE)))))
      (zrange 0 SPECSIZE).

(** [logscale[i] = powf (SPECSIZE/2, (float) 2*i / SPECSIZE) - 0.5f;]
    for [i <= SPECSIZE/2], a [float] stored in a [QVector<double>]. *)
Definition logscale_entry (i : Z) : float :=
  F.sub (powf L (F.of_int (SPECSIZE / 2))
                (F.div (F.mul (F.of_int 2) (F.of_int i)) (F.of_int SPECSIZE)))
        (F.literal 1 2).

Definition logscale_table : list double :=
  map (fun i => D.of_float (logscale_entry i)) (zrange 0 (SPECSIZE / 2 + 1)).

(** The constructor: the two tables are filled, [compressed = true;
    running = false; timer->start(100)]; [numberOfChunks], [interval] and
    [pass] are not initialised. *)
Definition BufferProcessor_new : BufferProcessor := {|
  array := [];
  window := window_table;
  logscale := logscale_table;
  compressed := true;
  running := false;
  numberOfChunks := None;
  interval := None;
  pass := None;
  timer := Some 100
|}.

(** The amplitude loop of [run]: the first [SPECSIZE/2] entries of
    [complexFrame] are replaced by their scaled, clamped magnitudes. *)
Definition amplitude (c : Complex) : double :=
  let amplitude := D.mul SpectrumAnalyserMultiplier (c_abs L c) in
  let amplitude := qMax D.zero amplitude in
  qMin D.one amplitude.

Definition amplitudes (complexFrame : list Complex) : list Complex :=
  map (fun c => (amplitude c, D.zero))
      (firstn (Z.to_nat (SPECSIZE / 2)) complexFrame)
  ++ skipn (Z.to_nat (SPECSIZE / 2)) complexFrame.

(** [sum *= (float) SPECSIZE/24; val = 20*log10f (sum); val = 1 + val / 40;
     spectrum[i] = CLAMP (val, 0, 1);] *)
Definition decibel (sum : float) : double :=
  let sum := F.mul sum (F.div (F.of_int SPECSIZE) (F.of_int 24)) in
  let val := F.mul (F.of_int 20) (log10f L sum) in
  let val := F.add (F.of_int 1) (F.div val (F.of_int 40)) in
  D.of_float (CLAMP val (F.of_int 0) (F.of_int 1)).

(** The part of [run] after [fft(complexFrame)]: the spectrum of one
    transformed frame. *)
Definition shape (logscale : list double) (compressed : bool)
    (complexFrame : list Complex) : outcome (list double) :=
  let complexFrame := amplitudes complexFrame in
  if compressed then
    mapM (fun i => s <- bucket logscale complexFrame i ;; Ok (decibel (fst s)))
         (zrange 0 (SPECSIZE / 2))
  else
    mapM (linear complexFrame) (zrange 0 (SPECSIZE / 2)).

(** [void BufferProcessor::run()], the slot of the timer. *)
Definition run (s : BufferProcessor) : outcome (BufferProcessor * list signal) :=
  p <- read_member (pass s) ;;
  n <- read_member (numberOfChunks s) ;;
  if p =? n then Ok (s, [allDone])
  else if Z.of_nat (length (array s)) <? SPECSIZE then Ok (s, [])
  else
    complexFrame <- load_frame (window s) (array s) p ;;
    let complexFrame := fft (ops := Complex_ops L) complexFrame in
    spectrum <- shape (logscale s) (compressed s) complexFrame ;;
    Ok ({| array := array s;
           window := window s;
           logscale := logscale s;
           compressed := compressed s;
           running := running s;
           numberOfChunks := numberOfChunks s;
           interval := interval s;
           pass := Some (p + 1);
           timer := timer s |},
        [calculatedSpectrum spectrum]).

(** [k] consecutive timeouts of the timer, with the signals they emit. *)
Fixpoint ticks (k : nat) (s : BufferProcessor)
    : outcome (BufferProcessor * list signal) :=
  match k with
  | O => Ok (s, [])
  | S k' =>
      r <- run s ;;
      r' <- ticks k' (fst r) ;;
      Ok (fst r', snd r ++ snd r')
  end.

(** The states a BufferProcessor goes through: the constructor, then slot
    invocations that return. *)
Inductive reachable : BufferProcessor -> Prop :=
| reach_new : reachable BufferProcessor_new
| reach_processBuffer s _array duration s' :
    reachable s -> processBuffer s _array duration = Ok s' -> reachable s'
| reach_run s s' sigs :
    reachable s -> run s = Ok (s', sigs) -> reachable s'.

End Processor.

(* ===================================================================== *)
(** * fftcalc.cpp: FFTCalc                                                *)
(* ===================================================================== *)

(** FFTCalc owns the processor and its thread.  The two directions between
    the threads are queued connections: [calc] posts an invocation of
    [processBuffer] to the processor's thread, and the processor's signals
    are posted back to the slots [setSpectrum] and [freeCalc]. *)
Record FFTCalc : Type := {
  isBusy : bool;
  processor : BufferProcessor;
  posted_calls : list (list double * Z);   (* queued for the processor *)
  posted_signals : list signal             (* queued for FFTCalc *)
}.

(** What happens next in the system of the two threads. *)
Inductive event : Type :=
| ev_calc (_array : list double) (duration : Z)  (* the owner calls calc *)
| ev_invoke      (* the processor's thread runs the next posted call *)
| ev_timeout     (* the processor's timer fires *)
| ev_deliver.    (* FFTCalc's thread runs the slot for the next posted signal *)

Section Calc.
Variable L : Libm.

(** The constructor, [isBusy = false]. *)
Definition FFTCalc_new : FFTCalc := {|
  isBusy := false;
  processor := BufferProcessor_new L;
  posted_calls := [];
  posted_signals := []
|}.

(** [void FFTCalc::calc(QVector<double> &_array, int duration)] *)
Definition calc (c : FFTCalc) (_array : list double) (duration : Z) : FFTCalc :=
  {| isBusy := isBusy c;
     processor := processor c;
     posted_calls := posted_calls c ++ [(_array, duration)];
     posted_signals := posted_signals c |}.

(** [void FFTCalc::setSpectrum(QVector<double> spectrum)]: the spectrum is
    emitted again as FFTCalc's own signal. *)
Definition setSpectrum (c : FFTCalc) (spectrum : list double)
    : FFTCalc * list (list double) :=
  (c, [spectrum]).

(** [void FFTCalc::freeCalc()] *)
Definition freeCalc (c : FFTCalc) : FFTCalc :=
  {| isBusy := false;
     processor := processor c;
     posted_calls := posted_calls c;
     posted_signals := posted_signals c |}.

(** One event; the second component is what FFTCalc emits as
    [calculatedSpectrum]. *)
Definition FFTCalc_step (c : FFTCalc) (e : event)
    : outcome (FFTCalc * list (list double)) :=
  match e with
  | ev_calc _array duration => Ok (calc c _array duration, [])
  | ev_invoke =>
      match posted_calls c with
      | [] => Ok (c, [])
      | (_array, duration) :: rest =>
          p <- processBuffer (processor c) _array duration ;;
          Ok ({| isBusy := isBusy c;
                 processor := p;
                 posted_calls := rest;
                 posted_signals := posted_signals c |}, [])
      end
  | ev_timeout =>
      r <- run L (processor c) ;;
      Ok ({| isBusy := isBusy c;
             processor := fst r;
             posted_calls := posted_calls c;
             posted_signals := posted_signals c ++ snd r |}, [])
  | ev_deliver =>
      match posted_signals c with
      | [] => Ok (c, [])
      | sig :: rest =>
          let c' := {| isBusy := isBusy c;
                       processor := processor c;
                       posted_calls := posted_calls c;
                       posted_signals := rest |} in
          match sig with
          | calculatedSpectrum spectrum => Ok (setSpectrum c' spectrum)
          | allDone => Ok (freeCalc c', [])
          end
      end
  end.

Fixpoint FFTCalc_steps (c : FFTCalc) (es : list event)
    : outcome (FFTCalc * list (list double)) :=
  match es with
  | [] => Ok (c, [])
  | e :: es' =>
      r <- FFTCalc_step c e ;;
      r' <- FFTCalc_steps (fst r) es' ;;
      Ok (fst r', snd r ++ snd r')
  end.

End Calc.

(* ===================================================================== *)
(** * mediaservice.cpp: the slot connected to FFTCalc::calculatedSpectrum  *)
(* ===================================================================== *)

(** [QVector<double>::resize(size)]: truncation, or padding with [0.0]. *)
Definition resize (v : list double) (size : nat) : list double :=
  firstn size v ++ repeat D.zero (size - length v).

(** [v[j] = x] *)
Definition store (v : list double) (j : Z) (x : double) : outcome (list double) :=
  if (0 <=? j) && (j <? Z.of_nat (length v))
  then Ok (firstn (Z.to_nat j) v ++ x :: skipn (S (Z.to_nat j)) v)
  else Fault IndexOutOfRange.

(** [for (int i = 0; i < spectrum.size(); i += step) { m_spectrum[j] =
    spectrum[i]; ++j; }].  [fuel] bounds the number of iterations; [None]
    is returned when it is used up. *)
Fixpoint decimate_loop (fuel : nat) (spectrum m_spectrum : list double)
    (step i j : Z) : option (outcome (list double)) :=
  if i <? Z.of_nat (length spectrum) then
    match fuel with
    | O => None
    | S fuel' =>
        match (x <- at_index spectrum i ;; store m_spectrum j x) with
        | Ok m' => decimate_loop fuel' spectrum m' step (i + step) (j + 1)
        | Fault f => Some (Fault f)
        end
    end
  else Some (Ok m_spectrum).

(** The lambda of the constructor of MediaService: the new value of
    [m_spectrum].  Every iteration stores into a new slot of the [size]
    slots, so [size + 1] iterations are never exceeded. *)
Definition on_calculatedSpectrum (m_spectrum spectrum : list double)
    : option (outcome (list double)) :=
  let size := 20 in
  let m_spectrum := resize m_spectrum (Z.to_nat size) in
  let j := 0 in
  decimate_loop (S (Z.to_nat size)) spectrum m_spectrum
    (Z.of_nat (length spectrum) / (size - 1)) 0 j.

(* ===================================================================== *)
(** * mediaservice.cpp: MediaService::processBuffer                       *)
(* ===================================================================== *)

(** Limits of the integer types of C++ ([int] of 32 bits, [short] of 16). *)
Definition SHRT_MAX : Z := 32767.
Definition UINT_MAX : Z := 4294967295.
Definition USHRT_MAX : Z := 65535.
Definition UCHAR_MAX : Z := 255.

(** Conversion of a [qint64] to [int]: the value modulo [2^32]. *)
Definition narrow_int (z : Z) : Z := (z + 2 ^ 31) mod 2 ^ 32 - 2 ^ 31.

(** [QAudioFormat]: what [processBuffer] asks of it.  [durationForBytes] is
    a function of Qt (microseconds for a number of bytes). *)
Module QAudioFormat.
Inductive SampleType : Type := Unknown | SignedInt | UnSignedInt | Float.
Record t : Type := {
  channelCount : Z;
  sampleSize : Z;
  sampleType : SampleType;
  durationForBytes : Z -> Z
}.
End QAudioFormat.

(** [QAudioBuffer]: the format, the number of frames, and the frames as
    [data<T>()] presents them for the three frame types [processBuffer]
    reads: [S16S] and [S16U] with integer channels [left, right], [S32F]
    with [float] channels. *)
Record QAudioBuffer : Type := {
  format : QAudioFormat.t;
  frameCount : Z;
  data_S16S : list (Z * Z);
  data_S16U : list (Z * Z);
  data_S32F : list (float * float)
}.

(** The members of MediaService that [processBuffer] and the slot of
    [calculatedSpectrum] work on.  The level meters ([levelLeft],
    [levelRight] and the signal [levels]) are left out. *)
Record MediaService : Type := {
  sample : list double;
  m_spectrum : list double;
  calculator : FFTCalc
}.

(** What arrives at the media service. *)
Inductive MediaService_event : Type :=
| audioBufferProbed (buffer : QAudioBuffer) (* the probe hands over a buffer *)
| processor_invoke    (* the processor's thread runs the next posted call *)
| processor_timeout   (* the processor's timer fires *)
| calculator_deliver. (* the next posted signal reaches FFTCalc *)

(** [sample[i] = data[i].left/peakValue;] for [i < frameCount] *)
Definition convert_int (data : list (Z * Z)) (peakValue : double) (frames : Z)
    (sample : list double) : outcome (list double) :=
  fold_left (fun acc i =>
               sample <- acc ;;
               d <- at_index data i ;;
               store sample i (D.div (D.of_int (fst d)) peakValue))
            (zrange 0 frames) (Ok sample).

(** The loop of the [Float] case, [peakValue = 1.00003]:
    [sample[i] = data[i].left/peakValue;
     if(sample[i] != sample[i]) sample[i] = 0;] *)
Definition convert_float (data : list (float * float)) (frames : Z)
    (sample : list double) : outcome (list double) :=
  let peakValue := D.literal 100003 100000 in
  fold_left (fun acc i =>
               sample <- acc ;;
               d <- at_index data i ;;
               sample <- store sample i (D.div (D.of_float (fst d)) peakValue) ;;
               x <- at_index sample i ;;
               y <- at_index sample i ;;
               if negb (SFeqb x y) then store sample i (D.of_int 0)
               else Ok sample)
            (zrange 0 frames) (Ok sample).

(** The value the loop of the [Float] case leaves at index [i]. *)
Definition float_sample (data : list (float * float)) (i : Z) : double :=
  let x := D.div (D.of_float (fst (nth (Z.to_nat i) data (F.zero, F.zero))))
                 (D.literal 100003 100000) in
  if IEEE.is_nan x then D.zero else x.

Section Probe.
(** [CHAR_MAX] is 127 or 255 with the signedness of [char]. *)
Variable CHAR_MAX : Z.
Variable L : Libm.

Definition MediaService_new : MediaService := {|
  sample := [];
  m_spectrum := [];
  calculator := FFTCalc_new L
|}.

(** [void MediaService::processBuffer(QAudioBuffer buffer)] *)
Definition MediaService_processBuffer (m : MediaService) (buffer : QAudioBuffer)
    : outcome MediaService :=
  if frameCount buffer <? 512 then Ok m
  else if negb (QAudioFormat.channelCount (format buffer) =? 2) then Ok m
  else
    let sampleSize := QAudioFormat.sampleSize (format buffer) in
    let sample := resize (sample m) (Z.to_nat (frameCount buffer)) in
    sample <-
      match QAudioFormat.sampleType (format buffer) with
      | QAudioFormat.SignedInt =>
          let peakValue :=
            if sampleSize =? 32 then D.of_int INT_MAX
            else if sampleSize =? 16 then D.of_int SHRT_MAX
            else D.of_int CHAR_MAX in
          convert_int (data_S16S buffer) peakValue (frameCount buffer) sample
      | QAudioFormat.UnSignedInt =>
          let peakValue :=
            if sampleSize =? 32 then D.of_int UINT_MAX
            else if sampleSize =? 16 then D.of_int USHRT_MAX
            else D.of_int UCHAR_MAX in
          convert_int (data_S16U buffer) peakValue (frameCount buffer) sample
      | QAudioFormat.Float =>
          convert_float (data_S32F buffer) (frameCount buffer) sample
      | QAudioFormat.Unknown => Ok sample
      end ;;
    let duration :=
      narrow_int
        (Z.quot (QAudioFormat.durationForBytes (format buffer) (frameCount buffer))
                1000) in
    Ok {| sample := sample;
          m_spectrum := m_spectrum m;
          calculator := calc (calculator m) sample duration |}.

(** The slot of [calculatedSpectrum] on each spectrum FFTCalc emits. *)
Definition spectrumChanged (m_spectrum : list double) (spectra : list (list double))
    : option (outcome (list double)) :=
  fold_left (fun acc spectrum =>
               match acc with
               | Some (Ok m_spectrum) => on_calculatedSpectrum m_spectrum spectrum
               | other => other
               end)
            spectra (Some (Ok m_spectrum)).

(** An event of the calculator, and the slot on what it emits. *)
Definition on_calculator (m : MediaService) (e : event)
    : option (outcome MediaService) :=
  match FFTCalc_step L (calculator m) e with
  | Fault f => Some (Fault f)
  | Ok (c, spectra) =>
      match spectrumChanged (m_spectrum m) spectra with
      | Some (Ok m_spectrum') =>
          Some (Ok {| sample := sample m;
                      m_spectrum := m_spectrum';
                      calculator := c |})
      | Some (Fault f) => Some (Fault f)
      | None => None
      end
  end.

Definition MediaService_step (m : MediaService) (e : MediaService_event)
    : option (outcome MediaService) :=
  match e with
  | audioBufferProbed buffer => Some (MediaService_processBuffer m buffer)
  | processor_invoke => on_calculator m ev_invoke
  | processor_timeout => on_calculator m ev_timeout
  | calculator_deliver => on_calculator m ev_deliver
  end.

Definition MediaService_steps (m : MediaService) (es : list MediaService_event)
    : option (outcome MediaService) :=
  fold_left (fun acc e =>
               match acc with
               | Some (Ok m) => MediaService_step m e
               | other => other
               end)
            es (Some (Ok m)).

End Probe.

(* ===================================================================== *)
(** * Predicates on floating-point values and on the tables               *)
(* ===================================================================== *)

(** [0 <= x <= 1] with the comparisons of IEEE 754: false for a NaN. *)
Definition in_unit (x : double) : bool :=
  SFleb (S754_zero false) x && SFleb x D.one.

(** Neither negative nor a NaN: a zero, a positive number or [+inf]. *)
Definition nonneg (x : spec_float) : bool :=
  match x with
  | S754_zero _ | S754_finite false _ _ | S754_infinity false => true
  | _ => false
  end.

Definition spec_float_eqb (x y : spec_float) : bool :=
  match x, y with
  | S754_zero s, S754_zero s' => Bool.eqb s s'
  | S754_infinity s, S754_infinity s' => Bool.eqb s s'
  | S754_nan, S754_nan => true
  | S754_finite s m e, S754_finite s' m' e' =>
      Bool.eqb s s' && Pos.eqb m m' && Z.eqb e e'
  | _, _ => false
  end.

(** What C99 (Annex F) guarantees of [log10f] as far as NaN is concerned:
    the result is a NaN only for a NaN or a negative argument. *)
Definition log10f_conforms (L : Libm) : Prop :=
  forall x : float, SFleb (S754_zero false) x = true ->
                    IEEE.is_nan (log10f L x) = false.

(** Entry [i] of a logscale table, as the [float] that [ceilf] and [floorf]
    receive, is a positive binary32 number [m * 2^e] with
    [| m * 2^e - ((SPECSIZE/2)^(2i/SPECSIZE) - 0.5) | <= 2^-10], and the
    stored [double] is that number.  With [(SPECSIZE/2)^(2i/SPECSIZE) =
    2^(i/32)] and [A = (m * 2^e + 1/2) * 2^40] the bound reads
    [(A - 2^30)^32 <= 2^i * 2^(40*32) <= (A + 2^30)^32]. *)
Definition logscale_entry_accurate (i : Z) (lo : double) : bool :=
  let t := F.of_double lo in
  spec_float_eqb (D.of_float t) lo
  && valid_binary F.prec F.emax t
  && match t with
     | S754_finite false m e =>
         (-40 <=? e)
         && (let A := Zpos m * 2 ^ (e + 40) + 2 ^ 39 in
             ((A - 2 ^ 30) ^ 32 <=? 2 ^ (i + 1280))
             && (2 ^ (i + 1280) <=? (A + 2 ^ 30) ^ 32))
     | _ => false
     end.

Fixpoint nondecreasing (l : list spec_float) : bool :=
  match l with
  | x :: (y :: _) as l' => SFleb x y && nondecreasing l'
  | _ => true
  end.

(** A table with [SPECSIZE/2 + 1] accurate, nondecreasing entries. *)
Definition logscale_accurate (logscale : list double) : bool :=
  (Z.of_nat (length logscale) =? SPECSIZE / 2 + 1)
  && forallb (fun p => logscale_entry_accurate (fst p) (snd p))
             (combine (zrange 0 (SPECSIZE / 2 + 1)) logscale)
  && nondecreasing logscale.

(* ===================================================================== *)
(** * A reference libm                                                    *)
(* ===================================================================== *)

(** Implementations of the library functions on top of the IEEE 754
    arithmetic, with which the model runs on concrete inputs.  They are
    written for the arguments the pipeline passes:
    angles in [[-2 PI, 2 PI]] and a positive base for [powf]. *)
Module Reference.

(** [1 - x2/(a(a+1)) (1 - x2/((a+2)(a+3)) (...))], [n] factors. *)
Fixpoint horner (x2 : double) (a : Z) (n : nat) : double :=
  match n with
  | O => D.one
  | S n' =>
      D.sub D.one
        (D.mul (D.div x2 (D.of_int (a * (a + 1)))) (horner x2 (a + 2) n'))
  end.

Definition cos (x : double) : double := horner (D.mul x x) 1 20.
Definition sin (x : double) : double := D.mul x (horner (D.mul x x) 2 20).

Definition polar (rho theta : double) : Complex :=
  (D.mul rho (cos theta), D.mul rho (sin theta)).

Definition c_abs (c : Complex) : double :=
  D.sqrt (D.add (D.mul (fst c) (fst c)) (D.mul (snd c) (snd c))).

Definition c_mul (a b : Complex) : Complex :=
  (D.sub (D.mul (fst a) (fst b)) (D.mul (snd a) (snd b)),
   D.add (D.mul (fst a) (snd b)) (D.mul (snd a) (fst b))).

Definition c_div (a b : Complex) : Complex :=
  let d := D.add (D.mul (fst b) (fst b)) (D.mul (snd b) (snd b)) in
  (D.div (D.add (D.mul (fst a) (fst b)) (D.mul (snd a) (snd b))) d,
   D.div (D.sub (D.mul (snd a) (fst b)) (D.mul (fst a) (snd b))) d).

Fixpoint pow_pos (x : double) (p : positive) : double :=
  match p with
  | xH => x
  | xO q => let y := pow_pos x q in D.mul y y
  | xI q => let y := pow_pos x q in D.mul x (D.mul y y)
  end.

(** [m * 2^e] rewritten with [m] odd or [e >= 0]. *)
Fixpoint reduce (n : nat) (m : positive) (e : Z) : positive * Z :=
  match n, m with
  | S n', xO m' => if e <? 0 then reduce n' m' (e + 1) else (m, e)
  | _, _ => (m, e)
  end.

(** [x^y] for [x > 0] and [y = +-m * 2^e]: square roots for a negative
    [e], then the power [m]. *)
Definition powf (x y : float) : float :=
  match x, y with
  | S754_finite false _ _, S754_zero _ => F.one
  | S754_finite false _ _, S754_finite s m e =>
      let '(m, e) := reduce 64 m e in
      let r := if e <? 0
               then Nat.iter (Z.to_nat (- e)) D.sqrt (D.of_float x)
               else pow_pos (D.of_float x) (Z.to_pos (2 ^ e)) in
      let p := pow_pos r m in
      F.of_double (if s then D.div D.one p else p)
  | _, _ => S754_nan
  end.

(** [log2 (m * 2^e)] in units of [2^-24], by repeated squaring of the
    mantissa in fixed point. *)
Definition log2_fix (m : positive) (e : Z) : Z :=
  let d := Z.pos (digits2_pos m) in
  let P := 60 in
  let y0 := Z.shiftl (Z.pos m) (P - (d - 1)) in
  let step '(y, acc) :=
    let y2 := Z.shiftr (y * y) P in
    if 2 ^ (P + 1) <=? y2 then (Z.shiftr y2 1, 2 * acc + 1) else (y2, 2 * acc) in
  let '(_, frac) := Nat.iter 24 step (y0, 0) in
  (d - 1 + e) * 2 ^ 24 + frac.

Definition log10f (x : float) : float :=
  match x with
  | S754_zero _ => S754_infinity true
  | S754_infinity false => x
  | S754_finite false m e =>
      F.of_double
        (D.mul (D.div (D.of_int (log2_fix m e)) (D.of_int (2 ^ 24)))
               (D.literal 30102999566398119521 (10 ^ 20)))
  | _ => S754_nan
  end.

Definition libm : Libm :=
  Build_Libm cos polar c_abs c_mul c_div powf log10f.

End Reference.

(* ===================================================================== *)
(** * Exact complex arithmetic                                            *)
(* ===================================================================== *)

(** The complex numbers over [R], with the angle of [std::polar] exact:
    the arithmetic in which the algebraic laws of the transform hold. *)
Module Exact.
Local Open Scope R_scope.

Definition CR : Type := (R * R)%type.

Definition cis (theta : R) : CR := (Rtrigo_def.cos theta, Rtrigo_def.sin theta).

#[export] Instance CR_ops : ComplexOps CR := {|
  czero := (0, 0);
  cadd a b := (fst a + fst b, snd a + snd b);
  csub a b := (fst a - fst b, snd a - snd b);
  cmul a b := (fst a * fst b - snd a * snd b, fst a * snd b + snd a * fst b);
  cdiv a b :=
    let d := fst b * fst b + snd b * snd b in
    ((fst a * fst b + snd a * snd b) / d, (snd a * fst b - fst a * snd b) / d);
  cconj a := (fst a, - snd a);
  unit_polar k N := cis (-2 * Rtrigo1.PI * INR k / INR N);
  of_size n := (INR n, 0)
|}.


End Exact.


(* ===================================================================== *)
(** * Invariants, plans of the table and example states                  *)
(* ===================================================================== *)

(** The invariant of the scheduler: once assigned, [numberOfChunks] is the
    number of full windows of the stored buffer and [pass] does not exceed
    it; the tables and the mode are those of the constructor. *)
Definition scheduled (L : Libm) (s : BufferProcessor) : Prop :=
  window s = window_table L /\ logscale s = logscale_table L
  /\ compressed s = true
  /\ match numberOfChunks s with
     | Some n =>
         n = Z.of_nat (length (array s)) / SPECSIZE /\ 1 <= n
         /\ exists p, pass s = Some p /\ 0 <= p <= n
     | None => array s = [] /\ pass s = None
     end.

(** Zero or a positive finite number. *)
Definition fin_nonneg (x : spec_float) : bool :=
  match x with
  | S754_zero _ | S754_finite false _ _ => true
  | _ => false
  end.

(** What the loop of the compressed mode needs of two consecutive entries
    of the logscale table: bin indices in range and weights that are not
    negative. *)
Definition bucket_plan (lo hi : double) : Prop :=
  exists a b,
    IEEE.to_int (F.ceilf (F.of_double lo)) = Ok a
    /\ IEEE.to_int (F.floorf (F.of_double hi)) = Ok b
    /\ 1 <= a <= SPECSIZE / 2 /\ 0 <= b < SPECSIZE / 2
    /\ fin_nonneg (D.sub hi lo) = true
    /\ fin_nonneg (D.sub (D.of_int a) lo) = true
    /\ fin_nonneg (D.sub hi (D.of_int b)) = true.

Definition table_plan (logscale : list double) : Prop :=
  forall i, 0 <= i < SPECSIZE / 2 ->
    exists lo hi, at_index logscale i = Ok lo
                  /\ at_index logscale (i + 1) = Ok hi
                  /\ bucket_plan lo hi.

(** A frame whose first [SPECSIZE/2] entries hold clamped amplitudes. *)
Definition clamped (complexFrame : list Complex) : Prop :=
  forall j, 0 <= j < SPECSIZE / 2 ->
    exists c, at_index complexFrame j = Ok c
              /\ fin_nonneg (fst c) = true /\ in_unit (fst c) = true.

(** What [logscale_entry_accurate] says of an entry: it is the exact image
    [mz * 2^(d + e - 53)] of a positive [float] [m * 2^e] of [d] digits,
    which lies in [[1/2 - 2^-10, 256 - 1/2 + 2^-10]]. *)
Definition entry_repr (lo : double) (m : positive) (e : Z) (mz : positive) : Prop :=
  F.of_double lo = S754_finite false m e
  /\ lo = S754_finite false mz (Zdigits2 (Zpos m) + e - 53)
  /\ Zpos mz = Zpos m * 2 ^ (53 - Zdigits2 (Zpos m))
  /\ 1 <= Zdigits2 (Zpos m) <= 24
  /\ -40 <= e <= 104
  /\ 2 ^ 39 - 2 ^ 30 <= Zpos m * 2 ^ (e + 40) < 2 ^ 48.

(** A processor whose schedule of one chunk has been worked off:
    [pass == numberOfChunks == 1], the timer running at 1000 ms. *)
Definition finished_schedule : BufferProcessor := {|
  array := repeat D.zero 512;
  window := window_table Reference.libm;
  logscale := logscale_table Reference.libm;
  compressed := true;
  running := false;
  numberOfChunks := Some 1;
  interval := Some 1000;
  pass := Some 1;
  timer := Some 1000
|}.

(** A processor that has just accepted one window of silence for 1000 ms. *)
Definition fresh_schedule : BufferProcessor := {|
  array := repeat D.zero 512;
  window := window_table Reference.libm;
  logscale := logscale_table Reference.libm;
  compressed := true;
  running := false;
  numberOfChunks := Some 1;
  interval := Some 1000;
  pass := Some 0;
  timer := Some 1000
|}.

(** A spectrum as the display expects it: [SPECSIZE/2] values in [[0,1]]. *)
Definition good_spectrum (spectrum : list double) : Prop :=
  Z.of_nat (length spectrum) = SPECSIZE / 2
  /\ Forall (fun x => in_unit x = true) spectrum.

Definition good_signal (sig : signal) : Prop :=
  match sig with
  | calculatedSpectrum spectrum => good_spectrum spectrum
  | allDone => True
  end.

(** The calculator once its processor has accepted a buffer: every call
    in the queue carries a full window, every signal in the queue a good
    spectrum. *)
Definition ready (L : Libm) (c : FFTCalc) : Prop :=
  reachable L (processor c)
  /\ numberOfChunks (processor c) <> None
  /\ Forall (fun call : list double * Z =>
               SPECSIZE <= Z.of_nat (length (fst call))) (posted_calls c)
  /\ Forall good_signal (posted_signals c).


(** The frame type [processBuffer] reads holds [frameCount] frames. *)
Definition readable (buffer : QAudioBuffer) : Prop :=
  match QAudioFormat.sampleType (format buffer) with
  | QAudioFormat.SignedInt =>
      frameCount buffer <= Z.of_nat (length (data_S16S buffer))
  | QAudioFormat.UnSignedInt =>
      frameCount buffer <= Z.of_nat (length (data_S16U buffer))
  | QAudioFormat.Float =>
      frameCount buffer <= Z.of_nat (length (data_S32F buffer))
  | QAudioFormat.Unknown => True
  end.


(** What the display holds: nothing yet, or 20 values in [[0,1]]. *)
Definition displayable (m_spectrum : list double) : Prop :=
  (m_spectrum = [] \/ length m_spectrum = 20%nat)
  /\ Forall (fun x => in_unit x = true) m_spectrum.

(** The number of elements the slot of [calculatedSpectrum] stores for a
    spectrum of [n] elements that it can handle. *)
Definition stored (n : Z) : nat :=
  if n =? 0 then 0%nat else if n mod 19 =? 0 then 19%nat else 20%nat.

(** The media service once its calculator is ready. *)
Definition MediaService_ready (L : Libm) (m : MediaService) : Prop :=
  ready L (calculator m) /\ displayable (m_spectrum m).

(** A stereo buffer of 32-bit floats: 512 frames of silence. *)
Definition silence : QAudioBuffer := {|
  format := {| QAudioFormat.channelCount := 2;
               QAudioFormat.sampleSize := 32;
               QAudioFormat.sampleType := QAudioFormat.Float;
               QAudioFormat.durationForBytes := fun bytes => bytes * 125 / 44 |};
  frameCount := 512;
  data_S16S := [];
  data_S16U := [];
  data_S32F := repeat (F.zero, F.zero) 512
|}.

(** The spectra among signals. *)
Definition spectra_of (sigs : list signal) : list (list double) :=
  flat_map (fun sig => match sig with
                       | calculatedSpectrum spectrum => [spectrum]
                       | allDone => []
                       end) sigs.

(** The spectra the processor emits while the events [es] happen. *)
Fixpoint produced (L : Libm) (c : FFTCalc) (es : list event)
    : list (list double) :=
  match es with
  | [] => []
  | e :: es' =>
      match FFTCalc_step L c e with
      | Ok (c', _) =>
          match e, run L (processor c) with
          | ev_timeout, Ok (_, sigs) => spectra_of sigs
          | _, _ => []
          end ++ produced L c' es'
      | Fault _ => []
      end
  end.

(** The processor with another stored buffer. *)
Definition with_array (s : BufferProcessor) (_array : list double)
    : BufferProcessor :=
  {| array := _array; window := window s; logscale := logscale s;
     compressed := compressed s; running := running s;
     numberOfChunks := numberOfChunks s; interval := interval s;
     pass := pass s; timer := timer s |}.

(** The signals of a tick. *)
Definition signals_of (r : outcome (BufferProcessor * list signal))
    : outcome (list signal) :=
  x <- r ;; Ok (snd x).

(** A zero of either sign. *)
Definition is_zero (x : spec_float) : bool :=
  match x with S754_zero _ => true | _ => false end.

(** A frame whose first [SPECSIZE/2] entries hold the amplitude [+0]. *)
Definition silent (complexFrame : list Complex) : Prop :=
  forall j, 0 <= j < SPECSIZE / 2 ->
    exists c, at_index complexFrame j = Ok c /\ fst c = D.zero.

(* ===================================================================== *)
(** * Properties: the chunk scheduler                                     *)
(* ===================================================================== *)

Lemma bind_Ok {A B} (m : outcome A) (k : A -> outcome B) (b : B) :
  (x <- m ;; k x) = Ok b -> exists a, m = Ok a /\ k a = Ok b.
Proof. destruct m as [a|f]; simpl; intros H; [eauto | discriminate]. Qed.

Ltac bind_inv H :=
  let a := fresh "a" in
  let Ha := fresh "H" a in
  apply bind_Ok in H; destruct H as (a & Ha & H).

Lemma SPECSIZE_eq : SPECSIZE = 512.
Proof. reflexivity. Qed.

(** What a call of [processBuffer] that returns has done. *)
Lemma processBuffer_Ok s _array duration s' :
  processBuffer s _array duration = Ok s' ->
  exists n,
    (if Z.of_nat (length (array s)) =? Z.of_nat (length _array)
     then numberOfChunks s
     else Some (Z.of_nat (length _array) / SPECSIZE)) = Some n
    /\ n <> 0
    /\ s' = {| array := _array; window := window s; logscale := logscale s;
               compressed := compressed s; running := running s;
               numberOfChunks := Some n;
               interval := Some (Z.max 1 (Z.quot duration n));
               pass := Some 0;
               timer := Some (Z.max 1 (Z.quot duration n)) |}.
Proof.
  unfold processBuffer. intros H.
  bind_inv H. bind_inv H. exists a. unfold int_div in Ha0.
  destruct (a =? 0) eqn:E; [discriminate|]. apply Z.eqb_neq in E.
  injection Ha0 as <-. injection H as <-.
  split; [|split]; auto.
  - destruct (if Z.of_nat (length (array s)) =? Z.of_nat (length _array)
              then numberOfChunks s else _); simpl in Ha; congruence.
  - replace (if Z.quot duration a <? 1 then 1 else Z.quot duration a)
      with (Z.max 1 (Z.quot duration a)); [reflexivity|].
    destruct (Z.ltb_spec (Z.quot duration a) 1); lia.
Qed.

Lemma run_Ok L s s' sigs :
  run L s = Ok (s', sigs) ->
  exists p n, pass s = Some p /\ numberOfChunks s = Some n /\
    ((p = n /\ s' = s /\ sigs = [allDone])
     \/ (p <> n /\ Z.of_nat (length (array s)) < SPECSIZE /\ s' = s /\ sigs = [])
     \/ (p <> n /\ SPECSIZE <= Z.of_nat (length (array s))
         /\ exists complexFrame spectrum,
              load_frame (window s) (array s) p = Ok complexFrame
              /\ shape L (logscale s) (compressed s)
                   (fft (ops := Complex_ops L) complexFrame) = Ok spectrum
              /\ sigs = [calculatedSpectrum spectrum]
              /\ s' = {| array := array s; window := window s;
                         logscale := logscale s; compressed := compressed s;
                         running := running s;
                         numberOfChunks := numberOfChunks s;
                         interval := interval s; pass := Some (p + 1);
                         timer := timer s |})).
Proof.
  unfold run. intros H. bind_inv H. bind_inv H.
  destruct (pass s) as [p|]; [|discriminate].
  destruct (numberOfChunks s) as [n|]; [|discriminate].
  simpl in Ha, Ha0. injection Ha as <-. injection Ha0 as <-.
  exists p, n. split; [reflexivity|]. split; [reflexivity|].
  destruct (Z.eqb_spec p n).
  - left. injection H as <- <-. auto.
  - right. destruct (Z.ltb_spec (Z.of_nat (length (array s))) SPECSIZE).
    + left. injection H as <- <-. auto.
    + right. bind_inv H. bind_inv H. injection H as <- <-.
      repeat split; auto. exists a, a0. auto.
Qed.

Lemma scheduled_reachable L s : reachable L s -> scheduled L s.
Proof.
  induction 1 as [| s _array duration s' Hr IH H | s s' sigs Hr IH H].
  - unfold scheduled; simpl. auto.
  - destruct IH as (Hw & Hl & Hc & IH).
    apply processBuffer_Ok in H. destruct H as (n & Hn & Hn0 & ->).
    unfold scheduled; simpl. repeat split; auto.
    + destruct (Z.eqb_spec (Z.of_nat (length (array s))) (Z.of_nat (length _array))) as [E|E].
      * rewrite Hn in IH. destruct IH as (-> & _). rewrite E. reflexivity.
      * congruence.
    + assert (0 <= n); [|lia].
      destruct (Z.eqb_spec (Z.of_nat (length (array s))) (Z.of_nat (length _array))) as [E|E].
      * rewrite Hn in IH. lia.
      * injection Hn as <-. apply Z.div_pos; [lia | reflexivity].
    + exists 0. split; [reflexivity|].
      assert (0 <= n); [|lia].
      destruct (Z.eqb_spec (Z.of_nat (length (array s))) (Z.of_nat (length _array))) as [E|E].
      * rewrite Hn in IH. lia.
      * injection Hn as <-. apply Z.div_pos; [lia | reflexivity].
  - destruct IH as (Hw & Hl & Hc & IH).
    apply run_Ok in H. destruct H as (p & n & Hp & Hn & [H | [H | H]]).
    + destruct H as (_ & -> & _). unfold scheduled; auto.
    + destruct H as (_ & _ & -> & _). unfold scheduled; auto.
    + destruct H as (Hpn & _ & cf & sp & _ & _ & _ & ->).
      unfold scheduled; simpl. rewrite Hn in *. repeat split; auto; try tauto.
      destruct IH as (_ & _ & p' & Hp' & Hle). exists (p + 1).
      split; [reflexivity|]. rewrite Hp in Hp'. injection Hp' as <-. lia.
Qed.

(** A tick on a finished schedule: the completion signal again, and nothing
    else changes; in particular the timer keeps running. *)
Lemma run_finished L s n :
  pass s = Some n -> numberOfChunks s = Some n -> run L s = Ok (s, [allDone]).
Proof.
  intros Hp Hn. unfold run. rewrite Hp, Hn. simpl. rewrite Z.eqb_refl. reflexivity.
Qed.

Lemma ticks_finished L s n k :
  pass s = Some n -> numberOfChunks s = Some n ->
  ticks L k s = Ok (s, repeat allDone k).
Proof.
  intros Hp Hn. induction k as [|k IH]; [reflexivity|].
  simpl. rewrite (run_finished L s Hp Hn). simpl. rewrite IH. reflexivity.
Qed.

(** How [processBuffer] fares on a buffer of at least one window. *)
Lemma processBuffer_full_window L s _array duration :
  reachable L s -> SPECSIZE <= Z.of_nat (length _array) ->
  let n := Z.of_nat (length _array) / SPECSIZE in
  1 <= n /\
  processBuffer s _array duration =
    Ok {| array := _array; window := window s; logscale := logscale s;
          compressed := compressed s; running := running s;
          numberOfChunks := Some n;
          interval := Some (Z.max 1 (Z.quot duration n));
          pass := Some 0;
          timer := Some (Z.max 1 (Z.quot duration n)) |}.
Proof.
  intros Hr Hlen n.
  assert (Hn : 1 <= n).
  { unfold n. rewrite SPECSIZE_eq in *. apply Z.div_le_lower_bound; lia. }
  split; [exact Hn|].
  apply scheduled_reachable in Hr. destruct Hr as (_ & _ & _ & Hr).
  unfold processBuffer.
  assert (E : (if Z.of_nat (length (array s)) =? Z.of_nat (length _array)
               then numberOfChunks s
               else Some (Z.of_nat (length _array) / SPECSIZE)) = Some n).
  { destruct (Z.eqb_spec (Z.of_nat (length (array s))) (Z.of_nat (length _array))) as [E|E];
      [|reflexivity].
    destruct (numberOfChunks s) as [m|].
    - destruct Hr as (-> & _). rewrite E. reflexivity.
    - destruct Hr as (Hr & _). rewrite Hr in E. simpl in E.
      rewrite SPECSIZE_eq in Hlen. lia. }
  rewrite E. simpl. unfold int_div.
  destruct (Z.eqb_spec n 0); [lia|]. simpl.
  replace (if Z.quot duration n <? 1 then 1 else Z.quot duration n)
    with (Z.max 1 (Z.quot duration n)); [reflexivity|].
  destruct (Z.ltb_spec (Z.quot duration n) 1); lia.
Qed.



(** C2, as stated, fails: two ticks with [pass == numberOfChunks] emit two
    completion signals, and the timer is still running afterwards. *)
Lemma finished_schedule_signals_twice :
  pass finished_schedule = numberOfChunks finished_schedule
  /\ ticks Reference.libm 2 finished_schedule
     = Ok (finished_schedule, [allDone; allDone])
  /\ timer finished_schedule = Some 1000.
Proof.
  split; [reflexivity|]. split; [|reflexivity].
  exact (ticks_finished Reference.libm finished_schedule 2 eq_refl eq_refl).
Qed.

(** C2, amended.  A tick with [pass == numberOfChunks] emits the completion
    signal and changes nothing, the timer included: [run] never stops it.
    So [k] ticks on a finished schedule emit [k] completion signals. *)
Theorem completion_signal_every_tick (L : Libm) (s : BufferProcessor) (n : Z)
    (k : nat) :
  pass s = Some n -> numberOfChunks s = Some n ->
  run L s = Ok (s, [allDone])
  /\ ticks L k s = Ok (s, repeat allDone k).
Proof.
  intros Hp Hn. split.
  - exact (run_finished L s Hp Hn).
  - exact (ticks_finished L s k Hp Hn).
Qed.

Lemma completion_signal_every_tick_witness :
  run Reference.libm finished_schedule = Ok (finished_schedule, [allDone])
  /\ ticks Reference.libm 3 finished_schedule
     = Ok (finished_schedule, [allDone; allDone; allDone]).
Proof.
  exact (completion_signal_every_tick Reference.libm finished_schedule 3
           eq_refl eq_refl).
Defined.





(** C7.  A submission of a buffer with at least one full window returns, with
    [numberOfChunks >= 1] and both [interval] and the timer set to
    [max (1, duration / numberOfChunks)], the quotient of C++ (truncated);
    since a quotient below 1 is replaced by 1, flooring division gives the
    same interval.  The interval is at least 1. *)
Theorem interval_is_max_1_quotient (L : Libm) (s : BufferProcessor)
    (_array : list double) (duration : Z) :
  reachable L s ->
  SPECSIZE <= Z.of_nat (length _array) ->
  exists s' n,
    processBuffer s _array duration = Ok s'
    /\ numberOfChunks s' = Some n /\ 1 <= n
    /\ interval s' = Some (Z.max 1 (Z.quot duration n))
    /\ Z.max 1 (Z.quot duration n) = Z.max 1 (duration / n)
    /\ timer s' = interval s'
    /\ 1 <= Z.max 1 (Z.quot duration n).
Proof.
  intros Hr Hlen.
  destruct (@processBuffer_full_window L s _array duration Hr Hlen) as (Hn & H).
  eexists. exists (Z.of_nat (length _array) / SPECSIZE).
  split; [exact H|]. simpl. repeat split; auto; try lia.
  destruct (Z.le_gt_cases 0 duration) as [Hd|Hd].
  - rewrite Z.quot_div_nonneg by lia. reflexivity.
  - assert (Z.quot duration (Z.of_nat (length _array) / SPECSIZE) <= 0).
    { apply Z.quot_le_upper_bound; lia. }
    assert (duration / (Z.of_nat (length _array) / SPECSIZE) < 0).
    { apply Z.div_lt_upper_bound; lia. }
    lia.
Qed.

Lemma interval_is_max_1_quotient_witness :
  exists s' n,
    processBuffer (BufferProcessor_new Reference.libm) (repeat D.zero 1535) 300
    = Ok s'
    /\ numberOfChunks s' = Some n /\ 1 <= n
    /\ interval s' = Some (Z.max 1 (Z.quot 300 n))
    /\ Z.max 1 (Z.quot 300 n) = Z.max 1 (300 / n)
    /\ timer s' = interval s'
    /\ 1 <= Z.max 1 (Z.quot 300 n).
Proof.
  apply (@interval_is_max_1_quotient Reference.libm
           (BufferProcessor_new Reference.libm) (repeat D.zero 1535) 300).
  - apply reach_new.
  - rewrite repeat_length. unfold SPECSIZE. lia.
Defined.

(* ===================================================================== *)
(** * Properties: FFTCalc                                                 *)
(* ===================================================================== *)





(* ===================================================================== *)
(** * Properties: the decimation of the media service                     *)
(* ===================================================================== *)

Lemma length_resize v size : length (resize v size) = size.
Proof.
  unfold resize. rewrite length_app, length_firstn, repeat_length. lia.
Qed.

Lemma at_index_nth {A} (v : list A) (i : Z) (d : A) :
  0 <= i < Z.of_nat (length v) -> at_index v i = Ok (nth (Z.to_nat i) v d).
Proof.
  intros Hi. unfold at_index.
  destruct (Z.leb_spec 0 i); [|lia].
  destruct (Z.ltb_spec i (Z.of_nat (length v))); [|lia]. simpl.
  destruct (nth_error v (Z.to_nat i)) eqn:E.
  - rewrite (nth_error_nth _ _ d E). reflexivity.
  - apply nth_error_None in E. lia.
Qed.

Lemma at_index_range {A} (v : list A) (i : Z) (a : A) :
  at_index v i = Ok a -> 0 <= i < Z.of_nat (length v).
Proof.
  unfold at_index.
  destruct (Z.leb_spec 0 i); destruct (Z.ltb_spec i (Z.of_nat (length v)));
    simpl; intros E; try discriminate E. lia.
Qed.

Lemma store_app done x y rest :
  store (done ++ y :: rest) (Z.of_nat (length done)) x = Ok (done ++ x :: rest).
Proof.
  unfold store. rewrite length_app. simpl.
  destruct (Z.leb_spec 0 (Z.of_nat (length done))); [|lia].
  destruct (Z.ltb_spec (Z.of_nat (length done))
              (Z.of_nat (length done + S (length rest)))); [|lia].
  cbn [andb]. rewrite Nat2Z.id. f_equal.
  change (firstn (length done) (done ++ y :: rest)
          ++ x :: skipn (S (length done)) (done ++ y :: rest)
          = done ++ x :: rest).
  rewrite firstn_app, firstn_all, Nat.sub_diag, skipn_app.
  rewrite skipn_all2 by lia.
  replace (S (length done) - length done)%nat with 1%nat by lia.
  cbn [firstn skipn app]. rewrite app_nil_r. reflexivity.
Qed.

(** The loop, when the [r] iterations it makes find room in [m_spectrum]:
    the slots already written are kept, the next [r] slots receive the
    elements [i, i + step, ...], the remaining slots are untouched. *)
Lemma decimate_loop_picks (spectrum : list double) (step : Z) :
  forall (r fuel : nat) (done rest : list double) (i : Z),
    (r <= fuel)%nat -> (r <= length rest)%nat ->
    (forall k, (k < r)%nat ->
               0 <= i + Z.of_nat k * step < Z.of_nat (length spectrum)) ->
    Z.of_nat (length spectrum) <= i + Z.of_nat r * step ->
    decimate_loop fuel spectrum (done ++ rest) step i (Z.of_nat (length done))
    = Some (Ok (done
                ++ map (fun k => nth (Z.to_nat (i + Z.of_nat k * step)) spectrum D.zero)
                       (seq 0 r)
                ++ skipn r rest)).
Proof.
  induction r as [|r IH]; intros fuel done rest i Hf Hr Hin Hout.
  - simpl in Hout. rewrite Z.add_0_r in Hout.
    destruct fuel; simpl;
      (destruct (Z.ltb_spec i (Z.of_nat (length spectrum))); [lia|]);
      reflexivity.
  - destruct fuel as [|fuel]; [lia|].
    destruct rest as [|y rest]; [simpl in Hr; lia|].
    assert (H0 : 0 <= i < Z.of_nat (length spectrum)).
    { specialize (Hin 0%nat ltac:(lia)). simpl in Hin. lia. }
    cbn [decimate_loop].
    destruct (Z.ltb_spec i (Z.of_nat (length spectrum))); [|lia].
    rewrite (at_index_nth spectrum D.zero H0). cbn [bind].
    rewrite store_app.
    replace (done ++ nth (Z.to_nat i) spectrum D.zero :: rest)
      with ((done ++ [nth (Z.to_nat i) spectrum D.zero]) ++ rest)
      by (rewrite <- app_assoc; reflexivity).
    replace (Z.of_nat (length done) + 1)
      with (Z.of_nat (length (done ++ [nth (Z.to_nat i) spectrum D.zero])))
      by (rewrite length_app; simpl; lia).
    rewrite IH.
    + f_equal. f_equal. rewrite <- app_assoc. f_equal.
      cbn [seq map skipn app]. rewrite Z.mul_0_l, Z.add_0_r. f_equal.
      f_equal. rewrite <- seq_shift, map_map.
      apply map_ext. intros k. f_equal. f_equal. lia.
    + lia.
    + simpl in Hr. lia.
    + intros k Hk. specialize (Hin (S k) ltac:(lia)). lia.
    + lia.
Qed.

(** C9.  On a spectrum of 256 elements the slot of the media service takes
    the step [256 / 19 = 13] and fills its 20 display values with the
    elements 0, 13, 26, ..., 247, whatever [m_spectrum] held before. *)
Theorem display_takes_every_13th (m_spectrum spectrum : list double) :
  length spectrum = 256%nat ->
  on_calculatedSpectrum m_spectrum spectrum
  = Some (Ok (map (fun k => nth (13 * k) spectrum D.zero) (seq 0 20))).
Proof.
  intros Hlen. unfold on_calculatedSpectrum. cbv zeta. rewrite Hlen.
  change (Z.of_nat 256 / (20 - 1)) with 13.
  change (Z.to_nat 20) with 20%nat.
  pose proof (length_resize m_spectrum 20) as Hres.
  pose proof (@decimate_loop_picks spectrum 13 20 21 []
                (resize m_spectrum 20) 0) as E.
  cbn [app length Z.of_nat] in E. rewrite E; clear E.
  - rewrite skipn_all2 by (rewrite Hres; apply Nat.le_refl).
    rewrite app_nil_r. reflexivity.
  - lia.
  - rewrite Hres. apply Nat.le_refl.
  - intros k Hk. rewrite Hlen. lia.
  - rewrite Hlen. lia.
Qed.

Lemma display_takes_every_13th_witness :
  on_calculatedSpectrum [] (map D.of_int (zrange 0 256))
  = Some (Ok (map (fun k => nth (13 * k) (map D.of_int (zrange 0 256)) D.zero)
                  (seq 0 20))).
Proof.
  apply display_takes_every_13th. reflexivity.
Defined.

(* ===================================================================== *)
(** * Properties of the rounding of SpecFloat                             *)
(* ===================================================================== *)

Lemma Zdigits2_log2 (m : Z) : 0 < m -> Zdigits2 m = Z.log2 m + 1.
Proof.
  destruct m as [|p|p]; try lia. intros _. simpl.
  assert (H : forall q, Zpos (digits2_pos q) = Z.log2 (Zpos q) + 1).
  { induction q as [q IH|q IH|]; simpl; try reflexivity.
    - rewrite Pos2Z.inj_succ, IH. destruct q; simpl; lia.
    - rewrite Pos2Z.inj_succ, IH. destruct q; simpl; lia. }
  apply H.
Qed.

Lemma Zdigits2_nonneg (m : Z) : 0 <= Zdigits2 m.
Proof. destruct m; simpl; lia. Qed.

Lemma Zdigits2_pos_gt (p : positive) : 0 < Zpos (digits2_pos p).
Proof. lia. Qed.

Lemma Zdigits2_bounds (m : Z) :
  0 < m -> 2 ^ (Zdigits2 m - 1) <= m < 2 ^ Zdigits2 m.
Proof.
  intros Hm. rewrite Zdigits2_log2 by assumption.
  replace (Z.log2 m + 1 - 1) with (Z.log2 m) by lia.
  apply Z.log2_spec. assumption.
Qed.

Lemma Zdigits2_mono (a b : Z) : 0 < a -> a <= b -> Zdigits2 a <= Zdigits2 b.
Proof.
  intros Ha Hab. rewrite !Zdigits2_log2 by lia.
  pose proof (Z.log2_le_mono a b Hab). lia.
Qed.

Lemma shr_1_m (mrs : shr_record) :
  0 <= shr_m mrs -> shr_m (shr_1 mrs) = Z.shiftr (shr_m mrs) 1.
Proof.
  destruct mrs as [m r s]. simpl. rewrite <- Z.div2_spec.
  destruct m as [|[p|p|]|p]; simpl; intros H; try reflexivity; lia.
Qed.

Lemma shr_1_nonneg (mrs : shr_record) : 0 <= shr_m mrs -> 0 <= shr_m (shr_1 mrs).
Proof.
  intros H. rewrite shr_1_m by assumption. apply Z.shiftr_nonneg. assumption.
Qed.

Lemma iter_shr_1_nonneg (n : positive) : forall mrs : shr_record,
  0 <= shr_m mrs -> 0 <= shr_m (iter_pos shr_1 n mrs).
Proof.
  induction n as [n IH|n IH|]; intros mrs H; simpl.
  - apply IH, IH, shr_1_nonneg, H.
  - apply IH, IH, H.
  - apply shr_1_nonneg, H.
Qed.

Lemma iter_shr_1_m (n : positive) : forall mrs : shr_record,
  0 <= shr_m mrs ->
  shr_m (iter_pos shr_1 n mrs) = Z.shiftr (shr_m mrs) (Zpos n).
Proof.
  induction n as [n IH|n IH|]; intros mrs H; simpl.
  - rewrite IH by (apply iter_shr_1_nonneg, shr_1_nonneg, H).
    rewrite IH by (apply shr_1_nonneg, H).
    rewrite shr_1_m by exact H.
    rewrite !Z.shiftr_shiftr by lia. f_equal. lia.
  - rewrite IH by (apply iter_shr_1_nonneg, H).
    rewrite IH by exact H.
    rewrite !Z.shiftr_shiftr by lia. f_equal. lia.
  - apply shr_1_m. exact H.
Qed.

Lemma shr_record_of_loc_m (m : Z) (l : location) :
  shr_m (shr_record_of_loc m l) = m.
Proof. destruct l as [|[| |]]; reflexivity. Qed.

Lemma round_nearest_even_cases (m : Z) (l : location) :
  round_nearest_even m l = m \/ round_nearest_even m l = m + 1.
Proof.
  destruct l as [|[| |]]; simpl; auto. destruct (Z.even m); auto.
Qed.

Lemma iter_xO_Z (d m : positive) : Zpos (Pos.iter xO m d) = Zpos m * 2 ^ Zpos d.
Proof.
  induction d as [|d IH] using Pos.peano_ind.
  - simpl. lia.
  - rewrite Pos.iter_succ, Pos2Z.inj_xO, IH, Pos2Z.inj_succ, Z.pow_succ_r by lia.
    lia.
Qed.

Lemma shl_align_spec (mx : positive) (ex ex' : Z) :
  let r := shl_align mx ex ex' in
  snd r = Z.min ex ex'
  /\ Zpos (fst r) = Zpos mx * 2 ^ (ex - snd r)
  /\ Zdigits2 (Zpos (fst r)) + snd r = Zdigits2 (Zpos mx) + ex.
Proof.
  unfold shl_align. destruct (ex' - ex) as [|d|d] eqn:E; simpl fst; simpl snd.
  - rewrite Z.sub_diag. split; [lia|]. split; lia.
  - rewrite Z.sub_diag. split; [lia|]. split; lia.
  - assert (Hd : ex - ex' = Zpos d) by lia.
    split; [lia|]. rewrite Hd. split; [apply iter_xO_Z|].
    rewrite !Zdigits2_log2 by lia. rewrite iter_xO_Z.
    rewrite Z.log2_mul_pow2 by lia. lia.
Qed.

Section Rounding.
Variables prec emax : Z.
Hypothesis prec_gt_0 : 0 < prec.
Hypothesis prec_lt_emax : prec < emax.

Let emin := SpecFloat.emin prec emax.
Let fexp := SpecFloat.fexp prec emax.

Lemma fexp_spec (x : Z) : fexp x = Z.max (x - prec) emin.
Proof. reflexivity. Qed.

Lemma emin_eq : emin = 3 - emax - prec.
Proof. reflexivity. Qed.

(** The first component of [shr_fexp]: the mantissa is shifted to the
    exponent of its format, where it is canonical unless nothing is left. *)
Lemma shr_fexp_spec (m e : Z) (l : location) :
  0 < m -> e <= fexp (Zdigits2 m + e) ->
  let r := shr_fexp prec emax m e l in
  let m' := shr_m (fst r) in
  snd r = fexp (Zdigits2 m + e)
  /\ m' = Z.shiftr m (fexp (Zdigits2 m + e) - e)
  /\ (0 < m' -> Zdigits2 m' + snd r = Zdigits2 m + e)
  /\ (m' = 0 -> snd r = emin).
Proof.
  intros Hm He. unfold shr_fexp. fold fexp.
  set (n := fexp (Zdigits2 m + e) - e). unfold shr.
  destruct n as [|p|p] eqn:En; simpl.
  - rewrite shr_record_of_loc_m, Z.shiftr_0_r.
    repeat split; try lia.
  - rewrite iter_shr_1_m by (rewrite shr_record_of_loc_m; lia).
    rewrite shr_record_of_loc_m.
    split; [lia|]. split; [reflexivity|]. split.
    + intros Hpos. rewrite (Zdigits2_log2 Hpos), (Zdigits2_log2 Hm).
      rewrite Z.log2_shiftr by assumption.
      assert (Z.log2 m >= Zpos p).
      { destruct (Z.lt_ge_cases (Z.log2 m) (Zpos p)) as [Hlt|]; [|lia].
        rewrite (Z.shiftr_eq_0 m (Zpos p)) in Hpos; lia. }
      unfold n in En. lia.
    + intros H0. apply Z.shiftr_eq_0_iff in H0.
      destruct H0 as [H0|[_ H0]]; [lia|].
      unfold n in En. rewrite fexp_spec, (Zdigits2_log2 Hm) in En. lia.
  - lia.
Qed.

Lemma shr_fexp_nonneg (m e : Z) (l : location) :
  0 <= m -> 0 <= shr_m (fst (shr_fexp prec emax m e l)).
Proof.
  intros Hm. unfold shr_fexp, shr.
  destruct (SpecFloat.fexp prec emax (Zdigits2 m + e) - e) as [|p|p]; simpl;
    try (rewrite shr_record_of_loc_m; exact Hm).
  apply iter_shr_1_nonneg. rewrite shr_record_of_loc_m. exact Hm.
Qed.

(** [binary_round_aux] on a mantissa that is not negative: never a NaN. *)
Lemma binary_round_aux_cases (s : bool) (m e : Z) (l : location) :
  0 <= m ->
  let r := binary_round_aux prec emax s m e l in
  r = S754_zero s \/ r = S754_infinity s
  \/ exists m' e', r = S754_finite s m' e' /\ e' <= emax - prec.
Proof.
  intros Hm. unfold binary_round_aux.
  pose proof (shr_fexp_nonneg e l Hm) as H1.
  destruct (shr_fexp prec emax m e l) as [mrs' e']. simpl in H1.
  assert (H2 : 0 <= round_nearest_even (shr_m mrs') (loc_of_shr_record mrs')).
  { destruct (round_nearest_even_cases (shr_m mrs') (loc_of_shr_record mrs')) as [-> | ->]; lia. }
  pose proof (shr_fexp_nonneg e' loc_Exact H2) as H3.
  destruct (shr_fexp prec emax _ e' loc_Exact) as [mrs'' e'']. simpl in H3.
  destruct (shr_m mrs'') as [|p|p]; [auto | | lia].
  destruct (Z.leb_spec e'' (emax - prec)); [|auto].
  right. right. eauto.
Qed.

Lemma fexp_mono (x y : Z) : x <= y -> fexp x <= fexp y.
Proof. rewrite !fexp_spec. lia. Qed.

Lemma fexp_ge_emin (x : Z) : emin <= fexp x.
Proof. rewrite fexp_spec. lia. Qed.

(** The result of [binary_round]: a valid number of the format with the
    given sign, which is not an infinity unless the argument is large. *)
Lemma binary_round_spec (s : bool) (m : positive) (e : Z) :
  let r := binary_round prec emax s m e in
  valid_binary prec emax r = true
  /\ (r = S754_zero s \/ r = S754_infinity s
      \/ exists m' e', r = S754_finite s m' e')
  /\ (Zdigits2 (Zpos m) + e < emax -> r <> S754_infinity s).
Proof.
  unfold binary_round.
  pose proof (shl_align_spec m e (fexp (Zdigits2 (Zpos m) + e))) as (Hz1 & Hz2 & Hz3).
  change (Z.pos (digits2_pos m)) with (Zdigits2 (Zpos m)).
  fold fexp.
  destruct (shl_align m e (fexp (Zdigits2 (Zpos m) + e))) as [mz ez].
  simpl fst in *; simpl snd in *.
  set (d := Zdigits2 (Zpos m)) in *.
  assert (Hez : ez <= fexp (Zdigits2 (Zpos mz) + ez)) by (rewrite Hz3; lia).
  unfold binary_round_aux.
  pose proof (@shr_fexp_spec (Zpos mz) ez loc_Exact ltac:(lia) Hez) as (Ha & Hb & Hc & Hd).
  destruct (shr_fexp prec emax (Zpos mz) ez loc_Exact) as [mrs' e'].
  simpl fst in *; simpl snd in *.
  set (m1 := round_nearest_even (shr_m mrs') (loc_of_shr_record mrs')).
  assert (Hm' : 0 <= shr_m mrs').
  { rewrite Hb. apply Z.shiftr_nonneg. lia. }
  assert (Hm1 : m1 = shr_m mrs' \/ m1 = shr_m mrs' + 1)
    by apply round_nearest_even_cases.
  destruct (Z.eq_dec m1 0) as [H0|H0].
  - (* everything is rounded away *)
    rewrite H0.
    assert (E : shr_m (fst (shr_fexp prec emax 0 e' loc_Exact)) = 0).
    { unfold shr_fexp, shr.
      destruct (SpecFloat.fexp prec emax (Zdigits2 0 + e') - e') as [|p|p];
        simpl; try reflexivity.
      rewrite iter_shr_1_m by (simpl; lia). simpl. apply Z.shiftr_0_l. }
    destruct (shr_fexp prec emax 0 e' loc_Exact) as [mrs'' e''].
    simpl in E. rewrite E. simpl. split; [reflexivity|].
    split; [auto|discriminate].
  - assert (Hm1pos : 0 < m1) by lia.
    assert (He' : e' <= fexp (Zdigits2 m1 + e')).
    { destruct (Z.eq_dec (shr_m mrs') 0) as [Hz|Hz].
      - rewrite (Hd Hz). apply fexp_ge_emin.
      - rewrite Ha at 1. rewrite <- (Hc ltac:(lia)).
        apply fexp_mono.
        assert (Zdigits2 (shr_m mrs') <= Zdigits2 m1)
          by (apply Zdigits2_mono; lia).
        lia. }
    assert (Hdig : Zdigits2 m1 + e' <= d + e + 1 \/ Zdigits2 m1 + e' = 1 + emin).
    { destruct (Z.eq_dec (shr_m mrs') 0) as [Hz|Hz].
      - right. rewrite (Hd Hz). replace m1 with 1 by lia. reflexivity.
      - left. rewrite <- Hz3, <- (Hc ltac:(lia)).
        assert (Zdigits2 m1 <= Zdigits2 (shr_m mrs') + 1); [|lia].
        rewrite !Zdigits2_log2 by lia.
        destruct Hm1 as [-> | ->]; [lia|].
        pose proof (Z.log2_succ_le (shr_m mrs')). unfold Z.succ in *. lia. }
    pose proof (@shr_fexp_spec m1 e' loc_Exact Hm1pos He') as (Ha2 & Hb2 & Hc2 & Hd2).
    destruct (shr_fexp prec emax m1 e' loc_Exact) as [mrs'' e''].
    simpl fst in *; simpl snd in *.
    assert (Hm'' : 0 <= shr_m mrs'').
    { rewrite Hb2. apply Z.shiftr_nonneg. lia. }
    destruct (shr_m mrs'') as [|p|p] eqn:Ep; [| |lia].
    + simpl. split; [reflexivity|]. split; [auto|discriminate].
    + destruct (Z.leb_spec e'' (emax - prec)) as [Hle|Hgt].
      * split; [|split; [eauto 6|discriminate]].
        simpl. unfold bounded, canonical_mantissa.
        change (Z.pos (digits2_pos p)) with (Zdigits2 (Zpos p)).
        rewrite (Hc2 ltac:(lia)). fold fexp. rewrite <- Ha2.
        rewrite Z.eqb_refl. simpl. apply Z.leb_le. exact Hle.
      * split; [reflexivity|]. split; [auto|].
        intros Hlt _. rewrite Ha2, fexp_spec in Hgt.
        rewrite emin_eq in *. lia.
Qed.

(** A mantissa that fits the format is not rounded: [binary_round] only
    changes the representation. *)
Lemma binary_round_exact (s : bool) (m : positive) (e : Z) :
  Zdigits2 (Zpos m) <= prec -> emin <= e -> Zdigits2 (Zpos m) + e <= emax ->
  exists mz,
    binary_round prec emax s m e
    = S754_finite s mz (fexp (Zdigits2 (Zpos m) + e))
    /\ Zpos mz = Zpos m * 2 ^ (e - fexp (Zdigits2 (Zpos m) + e)).
Proof.
  intros Hd He Hmax. unfold binary_round.
  pose proof (shl_align_spec m e (fexp (Zdigits2 (Zpos m) + e))) as (Hz1 & Hz2 & Hz3).
  change (Z.pos (digits2_pos m)) with (Zdigits2 (Zpos m)).
  fold fexp.
  destruct (shl_align m e (fexp (Zdigits2 (Zpos m) + e))) as [mz ez].
  simpl fst in *; simpl snd in *.
  set (f := fexp (Zdigits2 (Zpos m) + e)) in *.
  assert (Hf : f <= e) by (unfold f; rewrite fexp_spec; lia).
  assert (Hez : ez = f) by lia. clear Hz1. subst ez.
  exists mz. split; [|exact Hz2].
  unfold binary_round_aux, shr_fexp. fold fexp. rewrite Hz3. fold f.
  rewrite Z.sub_diag. cbn [shr shr_record_of_loc shr_m loc_of_shr_record
                           round_nearest_even].
  change (Zdigits2 (Zpos mz)) with (Zpos (digits2_pos mz)) in Hz3.
  cbn [Zdigits2]. rewrite Hz3. fold f. rewrite Z.sub_diag.
  cbn [shr shr_m].
  destruct (Z.leb_spec f (emax - prec)) as [H|H]; [reflexivity|].
  unfold f in H. rewrite fexp_spec, emin_eq in H. lia.
Qed.
End Rounding.

(* ===================================================================== *)
(** * Properties of the IEEE 754 operations                               *)
(* ===================================================================== *)

Lemma fin_nonneg_nonneg x : fin_nonneg x = true -> nonneg x = true.
Proof. destruct x as [s|s| |s m e]; try destruct s; simpl; congruence. Qed.

Lemma nonneg_not_nan x : nonneg x = true -> IEEE.is_nan x = false.
Proof. destruct x as [s|s| |s m e]; simpl; congruence. Qed.

Lemma nonneg_leb_zero x : nonneg x = true -> SFleb (S754_zero false) x = true.
Proof.
  destruct x as [s|s| |s m e]; try destruct s; simpl; try congruence;
    reflexivity.
Qed.

(** [SFcompare] is antisymmetric. *)
Lemma SFcompare_antisym (x y : spec_float) :
  SFcompare y x = option_map CompOpp (SFcompare x y).
Proof.
  destruct x as [sx|sx| |sx mx ex], y as [sy|sy| |sy my ey];
    try destruct sx; try destruct sy; simpl; try reflexivity.
  - rewrite (Z.compare_antisym ex ey).
    destruct (ex ?= ey); simpl; try reflexivity.
    rewrite (Pos.compare_cont_antisym mx my Eq). simpl.
    destruct (Pos.compare_cont Eq mx my); reflexivity.
  - rewrite (Z.compare_antisym ex ey).
    destruct (ex ?= ey); simpl; try reflexivity.
    rewrite (Pos.compare_cont_antisym mx my Eq). simpl.
    destruct (Pos.compare_cont Eq mx my); reflexivity.
Qed.

Lemma SFcompare_numbers (a b : spec_float) :
  IEEE.is_nan a = false -> IEEE.is_nan b = false -> SFcompare a b <> None.
Proof.
  destruct a as [sa|sa| |sa ma ea], b as [sb|sb| |sb mb eb]; simpl;
    intros Ha Hb; discriminate.
Qed.

(** For numbers, [not (a < b)] is [b <= a]. *)
Lemma SFltb_false_SFleb (a b : spec_float) :
  IEEE.is_nan a = false -> IEEE.is_nan b = false ->
  SFltb a b = false -> SFleb b a = true.
Proof.
  intros Ha Hb. unfold SFltb, SFleb. rewrite (SFcompare_antisym a b).
  pose proof (SFcompare_numbers a b Ha Hb) as Hn.
  destruct (SFcompare a b) as [[| |]|]; simpl; congruence.
Qed.

Lemma SFltb_true_SFleb (a b : spec_float) : SFltb a b = true -> SFleb a b = true.
Proof.
  unfold SFltb, SFleb. destruct (SFcompare a b) as [[| |]|]; congruence.
Qed.

Lemma SFltb_not_nan (a b : spec_float) :
  SFltb a b = true -> IEEE.is_nan a = false /\ IEEE.is_nan b = false.
Proof.
  unfold SFltb. destruct a, b; simpl; auto; discriminate.
Qed.

(** ** The macro and the two Qt functions *)

Lemma SFltb_irrefl (x : spec_float) : SFltb x x = false.
Proof.
  unfold SFltb. pose proof (SFcompare_antisym x x) as H.
  destruct (SFcompare x x) as [[| |]|]; simpl in H; congruence.
Qed.

(** [CLAMP(a, min, max)] of a number lies between [min] and [max]. *)
Lemma CLAMP_range (a lo hi : spec_float) :
  IEEE.is_nan a = false -> IEEE.is_nan lo = false -> IEEE.is_nan hi = false ->
  SFleb lo hi = true ->
  SFleb lo (CLAMP a lo hi) = true /\ SFleb (CLAMP a lo hi) hi = true.
Proof.
  intros Ha Hlo Hhi Hle. unfold CLAMP.
  destruct (SFltb a lo) eqn:E1.
  - split; [|exact Hle]. apply SFltb_false_SFleb; auto. apply SFltb_irrefl.
  - destruct (SFltb hi a) eqn:E2.
    + split; [exact Hle|]. apply SFltb_false_SFleb; auto. apply SFltb_irrefl.
    + split; apply SFltb_false_SFleb; auto.
Qed.

(** A NaN passes through the macro: both comparisons are false. *)
Lemma CLAMP_nan (lo hi : spec_float) : CLAMP S754_nan lo hi = S754_nan.
Proof. destruct lo, hi; reflexivity. Qed.

Lemma one_not_lt_zero : SFltb D.one D.zero = false.
Proof. reflexivity. Qed.

(** [qMin(1.0, qMax(0.0, x))] lies in [[0,1]] for every [x]; a NaN gives
    [0.0], since [0.0 < NaN] is false. *)
Lemma qMin_qMax_range (x : double) :
  let a := qMin D.one (qMax D.zero x) in
  in_unit a = true /\ fin_nonneg a = true.
Proof.
  unfold qMax. destruct (SFltb D.zero x) eqn:E0.
  - unfold qMin. destruct (SFltb D.one x) eqn:E1.
    + split; reflexivity.
    + destruct (SFltb_not_nan _ _ E0) as (_ & Hx).
      unfold in_unit. change (S754_zero false) with D.zero.
      rewrite (SFltb_true_SFleb _ _ E0).
      rewrite (@SFltb_false_SFleb D.one x eq_refl Hx E1).
      split; [reflexivity|].
      destruct x as [s|s| |s m e]; try destruct s; try discriminate;
        reflexivity.
  - unfold qMin. rewrite one_not_lt_zero. split; reflexivity.
Qed.

Lemma qMax_zero_nan : qMax D.zero S754_nan = D.zero.
Proof. reflexivity. Qed.

Section Operations.
Local Arguments binary_round_aux : simpl never.
Local Arguments SFdiv_core_binary : simpl never.
Variables prec emax : Z.
Hypothesis prec_gt_0 : 0 < prec.
Hypothesis prec_lt_emax : prec < emax.

Lemma binary_normalize_valid (z e : Z) (szero : bool) :
  valid_binary prec emax (binary_normalize prec emax z e szero) = true.
Proof.
  destruct z as [|p|p]; simpl; [reflexivity| |];
    apply (binary_round_spec prec_gt_0 prec_lt_emax).
Qed.

Lemma binary_normalize_nonneg (z e : Z) (szero : bool) :
  0 <= z -> nonneg (binary_normalize prec emax z e szero) = true.
Proof.
  destruct z as [|p|p]; simpl; intros Hz; [reflexivity| |lia].
  destruct (binary_round_spec prec_gt_0 prec_lt_emax false p e)
    as (_ & [-> | [-> | (m' & e' & ->)]] & _); reflexivity.
Qed.

Lemma binary_normalize_not_nan (z e : Z) (szero : bool) :
  IEEE.is_nan (binary_normalize prec emax z e szero) = false.
Proof.
  destruct z as [|p|p]; simpl; [reflexivity| |].
  - destruct (binary_round_spec prec_gt_0 prec_lt_emax false p e)
      as (_ & [-> | [-> | (m' & e' & ->)]] & _); reflexivity.
  - destruct (binary_round_spec prec_gt_0 prec_lt_emax true p e)
      as (_ & [-> | [-> | (m' & e' & ->)]] & _); reflexivity.
Qed.

(** A difference that is not negative and not large: zero or a positive
    finite number. *)
Lemma binary_normalize_fin_nonneg (z e : Z) (k : Z) :
  0 <= z < 2 ^ k -> k + e < emax ->
  fin_nonneg (binary_normalize prec emax z e false) = true.
Proof.
  destruct z as [|p|p]; simpl; intros Hz Hk; [reflexivity| |lia].
  assert (Hd : Zdigits2 (Zpos p) <= k).
  { rewrite Zdigits2_log2 by lia.
    assert (Z.log2 (Zpos p) < k); [|lia].
    apply Z.log2_lt_pow2; lia. }
  destruct (binary_round_spec prec_gt_0 prec_lt_emax false p e)
    as (_ & [-> | [E | (m' & e' & ->)]] & Hfin); try reflexivity.
  exfalso. apply Hfin; [lia | exact E].
Qed.

Local Arguments binary_normalize : simpl never.

Lemma of_float_nonneg (x : spec_float) :
  nonneg x = true -> nonneg (IEEE.of_float prec emax x) = true.
Proof.
  destruct x as [s|s| |s m e]; simpl; auto. destruct s; [discriminate|].
  intros _. apply binary_normalize_nonneg. simpl. lia.
Qed.

Lemma of_float_not_nan (x : spec_float) :
  IEEE.is_nan x = false -> IEEE.is_nan (IEEE.of_float prec emax x) = false.
Proof.
  destruct x as [s|s| |s m e]; simpl; auto.
  intros _. apply binary_normalize_not_nan.
Qed.

Lemma SFmul_nonneg (x y : spec_float) :
  fin_nonneg x = true -> fin_nonneg y = true ->
  nonneg (SFmul prec emax x y) = true.
Proof.
  destruct x as [sx|sx| |sx mx ex], y as [sy|sy| |sy my ey];
    try discriminate; simpl; try reflexivity;
    try (destruct sx; [discriminate|]); try (destruct sy; [discriminate|]);
    intros _ _; try reflexivity.
  cbn [xorb].
  destruct (@binary_round_aux_cases prec emax false (Zpos (mx * my)) (ex + ey)
              loc_Exact ltac:(lia)) as [-> | [-> | (m' & e' & -> & _)]];
    reflexivity.
Qed.

(** The product with a positive finite constant. *)
Lemma SFmul_nonneg_l (x y : spec_float) :
  nonneg x = true -> fin_nonneg y = true -> y <> S754_zero false ->
  y <> S754_zero true ->
  nonneg (SFmul prec emax x y) = true.
Proof.
  intros Hx Hy H1 H2.
  destruct y as [sy|sy| |sy my ey]; try discriminate.
  - destruct sy; congruence.
  - destruct sy; [discriminate|].
    destruct x as [sx|sx| |sx mx ex]; try discriminate;
      destruct sx; try discriminate; try reflexivity.
    simpl. cbn [xorb].
    destruct (@binary_round_aux_cases prec emax false (Zpos (mx * my)) (ex + ey)
                loc_Exact ltac:(lia)) as [-> | [-> | (m' & e' & -> & _)]];
      reflexivity.
Qed.

Lemma SFadd_nonneg (x y : spec_float) :
  nonneg x = true -> nonneg y = true -> nonneg (SFadd prec emax x y) = true.
Proof.
  destruct x as [sx|sx| |sx mx ex], y as [sy|sy| |sy my ey];
    try discriminate; simpl;
    try (destruct sx; try discriminate); try (destruct sy; try discriminate);
    intros _ _; try reflexivity.
  apply binary_normalize_nonneg. simpl. lia.
Qed.

(** Products, quotients and sums with a finite constant that is not zero
    do not create a NaN. *)
Lemma SFmul_const_not_nan (s : bool) (m : positive) (e : Z) (x : spec_float) :
  IEEE.is_nan x = false ->
  IEEE.is_nan (SFmul prec emax (S754_finite s m e) x) = false.
Proof.
  destruct x as [sx|sx| |sx mx ex]; simpl; try reflexivity; try discriminate.
  intros _.
  destruct (@binary_round_aux_cases prec emax (xorb s sx) (Zpos (m * mx)) (e + ex)
              loc_Exact ltac:(lia)) as [-> | [-> | (m' & e' & -> & _)]];
    reflexivity.
Qed.

Lemma SFdiv_core_binary_nonneg (m1 : positive) (e1 : Z) (m2 : positive) (e2 : Z) :
  0 <= fst (fst (SFdiv_core_binary prec emax (Zpos m1) e1 (Zpos m2) e2)).
Proof.
  unfold SFdiv_core_binary.
  set (e' := Z.min _ _). set (s := e1 - e2 - e').
  set (m' := match s with Z.pos _ => Z.shiftl (Zpos m1) s | 0 => Zpos m1 | Z.neg _ => 0 end).
  assert (Hm' : 0 <= m').
  { unfold m'. destruct s; try lia. apply Z.shiftl_nonneg. lia. }
  pose proof (Z_div_mod m' (Zpos m2) ltac:(lia)) as H.
  destruct (Z.div_eucl m' (Zpos m2)) as [q r]. simpl.
  destruct H as (Hq & Hr). nia.
Qed.

Lemma SFdiv_const_not_nan (x : spec_float) (s : bool) (m : positive) (e : Z) :
  IEEE.is_nan x = false ->
  IEEE.is_nan (SFdiv prec emax x (S754_finite s m e)) = false.
Proof.
  destruct x as [sx|sx| |sx mx ex]; simpl; try reflexivity; try discriminate.
  intros _.
  pose proof (SFdiv_core_binary_nonneg mx ex m e) as H.
  destruct (SFdiv_core_binary prec emax (Zpos mx) ex (Zpos m) e) as [[mz ez] lz].
  simpl in H.
  destruct (@binary_round_aux_cases prec emax (xorb sx s) mz ez lz H)
    as [-> | [-> | (m' & e' & -> & _)]]; reflexivity.
Qed.

(** The sum of a finite constant and a number is a valid number. *)
Lemma SFadd_const_valid (s : bool) (m : positive) (e : Z) (x : spec_float) :
  valid_binary prec emax (S754_finite s m e) = true ->
  IEEE.is_nan x = false ->
  let r := SFadd prec emax (S754_finite s m e) x in
  IEEE.is_nan r = false /\ valid_binary prec emax r = true.
Proof.
  intros Hv. destruct x as [sx|sx| |sx mx ex]; simpl; try discriminate;
    intros _; auto.
  split; [apply binary_normalize_not_nan | apply binary_normalize_valid].
Qed.

End Operations.

(* ===================================================================== *)
(** * Properties: the shaping of a spectrum                               *)
(* ===================================================================== *)

Lemma F_prec_gt_0 : 0 < F.prec. Proof. reflexivity. Qed.
Lemma F_prec_lt_emax : F.prec < F.emax. Proof. reflexivity. Qed.
Lemma D_prec_gt_0 : 0 < D.prec. Proof. reflexivity. Qed.
Lemma D_prec_lt_emax : D.prec < D.emax. Proof. reflexivity. Qed.

(** What validity says of a positive binary32 number. *)
Lemma valid_float_bounds (m : positive) (e : Z) :
  valid_binary F.prec F.emax (S754_finite false m e) = true ->
  Zdigits2 (Zpos m) <= 24 /\ -149 <= e <= 104
  /\ (Zdigits2 (Zpos m) = 24 \/ e = -149).
Proof.
  unfold valid_binary, bounded, canonical_mantissa.
  intros H. apply andb_prop in H. destruct H as (H1 & H2).
  apply Z.eqb_eq in H1. apply Z.leb_le in H2.
  change (Z.pos (digits2_pos m)) with (Zdigits2 (Zpos m)) in H1.
  unfold fexp, emin, F.prec, F.emax in *. lia.
Qed.

(** The conversion of a positive binary32 number to binary64 is exact. *)
Lemma D_of_float_exact (m : positive) (e : Z) :
  valid_binary F.prec F.emax (S754_finite false m e) = true ->
  exists mz,
    D.of_float (S754_finite false m e)
    = S754_finite false mz (Zdigits2 (Zpos m) + e - 53)
    /\ Zpos mz = Zpos m * 2 ^ (53 - Zdigits2 (Zpos m)).
Proof.
  intros Hv. destruct (@valid_float_bounds m e Hv) as (Hd & He & _).
  pose proof (Zdigits2_bounds (m := Zpos m) ltac:(lia)) as Hb.
  assert (Hd0 : 0 < Zdigits2 (Zpos m)) by (simpl; lia).
  destruct (@binary_round_exact D.prec D.emax D_prec_gt_0 D_prec_lt_emax false m e)
    as (mz & E & Hmz); unfold D.prec, D.emax, emin; try lia.
  exists mz.
  assert (Hf : fexp D.prec D.emax (Zdigits2 (Zpos m) + e)
               = Zdigits2 (Zpos m) + e - 53).
  { unfold fexp, emin, D.prec, D.emax. lia. }
  unfold D.prec, D.emax in *. rewrite Hf in E, Hmz. split.
  - exact E.
  - rewrite Hmz. f_equal. f_equal. lia.
Qed.

(** A binary32 number in [[0,1]] is, as a [double], in [[0,1]]. *)
Lemma D_of_float_in_unit (y : float) :
  valid_binary F.prec F.emax y = true ->
  SFleb F.zero y = true -> SFleb y F.one = true ->
  in_unit (D.of_float y) = true.
Proof.
  intros Hv H0 H1.
  destruct y as [s|s| |s m e].
  - destruct s; reflexivity.
  - destruct s; [discriminate H0 | discriminate H1].
  - discriminate H0.
  - destruct s; [discriminate H0|].
    destruct (@valid_float_bounds m e Hv) as (Hd & He & Hc).
    destruct (@D_of_float_exact m e Hv) as (mz & -> & Hmz).
    pose proof (Zdigits2_bounds (m := Zpos m) ltac:(lia)) as Hb.
    unfold in_unit. cbn [SFleb SFcompare andb].
    change D.one with (S754_finite false 4503599627370496 (-52)).
    change F.one with (S754_finite false 8388608 (-23)) in H1.
    unfold SFleb in H1 |- *. cbn [SFcompare] in H1 |- *.
    destruct (Z.compare_spec e (-23)) as [Ee|Ee|Ee]; try discriminate.
    + (* e = -23: the number is 1 *)
      change (Pos.compare_cont Eq m 8388608) with (Pos.compare m 8388608) in H1.
      assert (Hm : (m <= 8388608)%positive).
      { unfold Pos.le. destruct (m ?= 8388608)%positive; congruence. }
      assert (Hdig : Zdigits2 (Zpos m) = 24) by lia.
      rewrite Hdig in *.
      assert (Em : Zpos m = 8388608).
      { change (2 ^ (24 - 1)) with 8388608 in Hb. lia. }
      subst e. change (24 + -23 - 53) with (-52). rewrite Z.compare_refl.
      assert (Emz : mz = 4503599627370496%positive).
      { apply Pos2Z.inj. rewrite Hmz, Em. reflexivity. }
      rewrite Emz. reflexivity.
    + assert (Hlt : Zdigits2 (Zpos m) + e - 53 < -52) by lia.
      apply Z.compare_lt_iff in Hlt. rewrite Hlt. reflexivity.
Qed.

Lemma mapM_Forall {A B} (f : A -> outcome B) (P : B -> Prop) (l : list A) :
  (forall x, In x l -> exists y, f x = Ok y /\ P y) ->
  exists ys, mapM f l = Ok ys /\ length ys = length l /\ Forall P ys.
Proof.
  induction l as [|a l IH]; intros H.
  - exists []. simpl. auto.
  - destruct (H a (or_introl eq_refl)) as (y & Hy & Py).
    destruct IH as (ys & Hys & Hlen & HP).
    { intros x Hx. apply H. right. exact Hx. }
    exists (y :: ys). simpl. rewrite Hy. simpl. rewrite Hys. simpl.
    repeat split; auto.
Qed.

Lemma in_zrange (lo hi k : Z) : In k (zrange lo hi) <-> lo <= k < hi.
Proof.
  unfold zrange. rewrite in_map_iff. split.
  - intros (n & <- & Hn). apply in_seq in Hn. lia.
  - intros Hk. exists (Z.to_nat (k - lo)). split; [lia|].
    apply in_seq. lia.
Qed.

Lemma length_zrange (lo hi : Z) : length (zrange lo hi) = Z.to_nat (hi - lo).
Proof. unfold zrange. rewrite length_map, length_seq. reflexivity. Qed.

Section Shaping.
Variable L : Libm.
Hypothesis log10f_ok : log10f_conforms L.

Lemma scale_constant :
  F.div (F.of_int SPECSIZE) (F.of_int 24) = S754_finite false 11184811 (-19).
Proof. reflexivity. Qed.

(** The value stored for a bucket whose sum is not negative. *)
Lemma decibel_in_unit (sum : float) :
  nonneg sum = true -> in_unit (decibel L sum) = true.
Proof.
  intros Hs. unfold decibel. rewrite scale_constant.
  set (sum1 := F.mul sum _).
  assert (H1 : nonneg sum1 = true).
  { apply (@SFmul_nonneg_l F.prec F.emax); auto; discriminate. }
  pose proof (log10f_ok sum1 (nonneg_leb_zero _ H1)) as Hv.
  set (v := log10f L sum1) in *.
  change (F.of_int 20) with (S754_finite false 10485760 (-19)).
  change (F.of_int 40) with (S754_finite false 10485760 (-18)).
  change (F.of_int 1) with (S754_finite false 8388608 (-23)).
  change (F.of_int 0) with (S754_zero false).
  set (t1 := F.mul _ v).
  assert (Ht1 : IEEE.is_nan t1 = false)
    by (apply (@SFmul_const_not_nan F.prec F.emax); exact Hv).
  set (t2 := F.div t1 _).
  assert (Ht2 : IEEE.is_nan t2 = false)
    by (apply (@SFdiv_const_not_nan F.prec F.emax); exact Ht1).
  set (val := F.add _ t2).
  destruct (@SFadd_const_valid F.prec F.emax F_prec_gt_0 F_prec_lt_emax
              false 8388608 (-23) t2 eq_refl Ht2) as (Hn & Hval).
  fold F.add in Hn, Hval. fold val in Hn, Hval.
  destruct (@CLAMP_range val (S754_zero false) (S754_finite false 8388608 (-23))
              Hn eq_refl eq_refl eq_refl) as (Hlo & Hhi).
  apply D_of_float_in_unit; auto.
  unfold CLAMP. destruct (SFltb val _); [reflexivity|].
  destruct (SFltb _ val); [reflexivity | exact Hval].
Qed.


Lemma amplitude_range (c : Complex) :
  in_unit (amplitude L c) = true /\ fin_nonneg (amplitude L c) = true.
Proof. unfold amplitude. apply qMin_qMax_range. Qed.

Lemma amplitudes_clamped (complexFrame : list Complex) :
  SPECSIZE / 2 <= Z.of_nat (length complexFrame) ->
  clamped (amplitudes L complexFrame)
  /\ length (amplitudes L complexFrame) = length complexFrame.
Proof.
  intros Hlen. change (SPECSIZE / 2) with 256 in *.
  assert (Hl : length (amplitudes L complexFrame) = length complexFrame).
  { unfold amplitudes. rewrite length_app, length_map, length_firstn, length_skipn.
    lia. }
  split; [|exact Hl].
  intros j Hj. change (SPECSIZE / 2) with 256 in *.
  rewrite (@at_index_nth _ (amplitudes L complexFrame) j (D.zero, D.zero))
    by (rewrite Hl; lia).
  eexists. split; [reflexivity|].
  unfold amplitudes. change (Z.to_nat (SPECSIZE / 2)) with 256%nat.
  rewrite app_nth1 by (rewrite length_map, length_firstn; lia).
  rewrite (nth_indep _ _ (amplitude L (D.zero, D.zero), D.zero))
    by (rewrite length_map, length_firstn; lia).
  pose proof (map_nth (fun c => (amplitude L c, D.zero))
                (firstn 256 complexFrame) (D.zero, D.zero) (Z.to_nat j)) as E.
  cbv beta in E. rewrite E. simpl fst.
  destruct (amplitude_range (nth (Z.to_nat j) (firstn 256 complexFrame) (D.zero, D.zero))).
  auto.
Qed.

Lemma accumulate_ok (complexFrame : list Complex) (j : Z) (w : option double)
    (st : float * list Z) :
  clamped complexFrame -> 0 <= j < SPECSIZE / 2 ->
  nonneg (fst st) = true ->
  match w with Some w => fin_nonneg w = true | None => True end ->
  exists sum, accumulate complexFrame j w st = Ok (sum, snd st ++ [j])
              /\ nonneg sum = true.
Proof.
  intros Hc Hj Hs Hw. destruct (Hc j Hj) as (c & Hat & Hfin & _).
  unfold accumulate. rewrite Hat. simpl. eexists. split; [reflexivity|].
  apply (of_float_nonneg F_prec_gt_0 F_prec_lt_emax).
  apply (SFadd_nonneg D_prec_gt_0 D_prec_lt_emax).
  - apply (of_float_nonneg D_prec_gt_0 D_prec_lt_emax). exact Hs.
  - destruct w as [w|].
    + apply (@SFmul_nonneg D.prec D.emax); assumption.
    + apply fin_nonneg_nonneg. exact Hfin.
Qed.

Lemma accumulate_range (complexFrame : list Complex) (ks : list Z) :
  clamped complexFrame ->
  Forall (fun k => 0 <= k < SPECSIZE / 2) ks ->
  forall st : float * list Z, nonneg (fst st) = true ->
    exists sum : float,
      fold_left (fun acc k => s <- acc ;; accumulate complexFrame k None s)
                ks (Ok st)
      = Ok (sum, snd st ++ ks)
      /\ nonneg sum = true.
Proof.
  intros Hc. induction 1 as [|k ks Hk Hks IH]; intros st Hs.
  - exists (fst st). simpl. rewrite app_nil_r. destruct st; auto.
  - destruct (@accumulate_ok complexFrame k None st Hc Hk Hs I) as (sum & E & Hsum).
    cbn [fold_left].
    change (s <- Ok st ;; accumulate complexFrame k None s)
      with (accumulate complexFrame k None st).
    rewrite E.
    destruct (IH (sum, snd st ++ [k]) Hsum) as (sum' & E' & Hsum').
    exists sum'. rewrite E'. simpl. rewrite <- app_assoc. auto.
Qed.

(** One bucket of the compressed mode: the loop body returns, its sum is not
    negative, and every index of [complexFrame] it reads is below
    [SPECSIZE/2]. *)
Lemma bucket_ok (logscale : list double) (complexFrame : list Complex) (i : Z)
    (lo hi : double) :
  clamped complexFrame ->
  at_index logscale i = Ok lo -> at_index logscale (i + 1) = Ok hi ->
  bucket_plan lo hi ->
  exists sum reads,
    bucket logscale complexFrame i = Ok (sum, reads)
    /\ nonneg sum = true
    /\ Forall (fun j => 0 <= j < SPECSIZE / 2) reads.
Proof.
  intros Hc Hlo Hhi (a & b & Ha & Hb & Har & Hbr & Hw0 & Hw1 & Hw3).
  unfold bucket. rewrite Hlo, Hhi. cbn [bind]. rewrite Ha, Hb. cbn [bind].
  change (F.of_int 0) with (S754_zero false).
  destruct (Z.ltb_spec b a) as [Hba|Hba].
  - destruct (@accumulate_ok complexFrame b (Some (D.sub hi lo))
                (@pair float (list Z) (S754_zero false) []) Hc Hbr eq_refl Hw0) as (sum & E & Hs).
    exists sum, [b]. rewrite E. simpl. repeat split; auto.
  - assert (Ha0 : (a >? 0) = true) by (apply Z.gtb_lt; lia). rewrite Ha0.
    destruct (@accumulate_ok complexFrame (a - 1) (Some (D.sub (D.of_int a) lo))
                (@pair float (list Z) (S754_zero false) []) Hc ltac:(lia) eq_refl Hw1) as (s1 & E1 & Hs1).
    rewrite E1. cbn [bind].
    assert (Hks : Forall (fun k => 0 <= k < SPECSIZE / 2) (zrange a b)).
    { apply Forall_forall. intros k Hk. apply in_zrange in Hk. lia. }
    destruct (@accumulate_range complexFrame (zrange a b) Hc Hks
                (s1, snd (@pair float (list Z) (S754_zero false) []) ++ [a - 1]) Hs1) as (s2 & E2 & Hs2).
    rewrite E2. cbn [bind].
    destruct (Z.ltb_spec b (SPECSIZE / 2)) as [Hb2|Hb2]; [|lia].
    destruct (@accumulate_ok complexFrame b (Some (D.sub hi (D.of_int b)))
                (s2, snd (s1, snd (@pair float (list Z) (S754_zero false) []) ++ [a - 1]) ++ zrange a b)
                Hc Hbr Hs2 Hw3) as (s3 & E3 & Hs3).
    rewrite E3. eexists. eexists. split; [reflexivity|]. split; [exact Hs3|].
    simpl. apply Forall_cons; [lia|]. apply Forall_app. split; [exact Hks|].
    apply Forall_cons; [exact Hbr|apply Forall_nil].
Qed.

(** The linear mode. *)
Lemma linear_ok (complexFrame : list Complex) (i : Z) :
  clamped complexFrame -> 0 <= i < SPECSIZE / 2 ->
  exists y, linear complexFrame i = Ok y /\ in_unit y = true.
Proof.
  intros Hc Hi. destruct (Hc i Hi) as (c & Hat & Hfin & _).
  unfold linear. rewrite Hat. cbn [bind]. eexists. split; [reflexivity|].
  assert (Hn : nonneg (D.mul (fst c) (D.of_int 100)) = true)
    by (apply (@SFmul_nonneg D.prec D.emax); [exact Hfin | reflexivity]).
  destruct (@CLAMP_range (D.mul (fst c) (D.of_int 100)) (D.of_int 0) (D.of_int 1)
              (nonneg_not_nan _ Hn) eq_refl eq_refl eq_refl) as (H0 & H1).
  unfold in_unit. change (S754_zero false) with (D.of_int 0).
  change D.one with (D.of_int 1). rewrite H0, H1. reflexivity.
Qed.

(** The spectrum of a transformed frame: [shape] returns [SPECSIZE/2] values
    in [[0,1]], in both modes. *)
Lemma shape_in_unit (logscale : list double) (compressed : bool)
    (complexFrame : list Complex) :
  (compressed = true -> table_plan logscale) ->
  SPECSIZE / 2 <= Z.of_nat (length complexFrame) ->
  exists spectrum,
    shape L logscale compressed complexFrame = Ok spectrum
    /\ Z.of_nat (length spectrum) = SPECSIZE / 2
    /\ Forall (fun x => in_unit x = true) spectrum.
Proof.
  intros Htbl Hlen. unfold shape.
  destruct (amplitudes_clamped complexFrame Hlen) as (Hc & _).
  destruct compressed.
  - destruct (@mapM_Forall _ _
                (fun i => s <- bucket logscale (amplitudes L complexFrame) i ;;
                          Ok (decibel L (fst s)))
                (fun x => in_unit x = true) (zrange 0 (SPECSIZE / 2)))
      as (ys & E & Hl & HP).
    { intros i Hi. apply in_zrange in Hi.
      destruct (Htbl eq_refl i Hi) as (lo & hi & Hlo & Hhi & Hplan).
      destruct (@bucket_ok logscale _ i lo hi Hc Hlo Hhi Hplan)
        as (sum & reads & E & Hs & _).
      rewrite E. simpl. eexists. split; [reflexivity|].
      apply decibel_in_unit. exact Hs. }
    exists ys. rewrite E. rewrite Hl, length_zrange. repeat split; auto.
  - destruct (@mapM_Forall _ _ (linear (amplitudes L complexFrame))
                (fun x => in_unit x = true) (zrange 0 (SPECSIZE / 2)))
      as (ys & E & Hl & HP).
    { intros i Hi. apply in_zrange in Hi. apply linear_ok; assumption. }
    exists ys. rewrite E. rewrite Hl, length_zrange. repeat split; auto.
Qed.

End Shaping.

(* ===================================================================== *)
(** * Properties: the logscale table                                      *)
(* ===================================================================== *)

Lemma spec_float_eqb_eq (x y : spec_float) : spec_float_eqb x y = true -> x = y.
Proof.
  destruct x as [s|s| |s m e], y as [s'|s'| |s' m' e']; simpl; try discriminate;
    intros H; try reflexivity.
  - apply eqb_prop in H. congruence.
  - apply eqb_prop in H. congruence.
  - apply andb_prop in H. destruct H as (H & He).
    apply andb_prop in H. destruct H as (Hs & Hm).
    apply eqb_prop in Hs. apply Pos.eqb_eq in Hm. apply Z.eqb_eq in He.
    congruence.
Qed.

(** Small integers are converted to [float] and back without change. *)
Lemma to_int_of_small (n : Z) :
  0 <= n <= SPECSIZE / 2 -> IEEE.to_int (F.of_int n) = Ok n.
Proof.
  intros Hn.
  assert (H : forallb (fun k => match IEEE.to_int (F.of_int k) with
                                | Ok k' => k' =? k
                                | Fault _ => false
                                end) (zrange 0 (SPECSIZE / 2 + 1)) = true)
    by (vm_compute; reflexivity).
  rewrite forallb_forall in H.
  specialize (H n). rewrite in_zrange in H.
  specialize (H ltac:(change (SPECSIZE / 2) with 256 in *; lia)).
  destruct (IEEE.to_int (F.of_int n)) as [k|]; [|discriminate].
  apply Z.eqb_eq in H. congruence.
Qed.

(** The representation of a small positive integer as a [double]. *)
Lemma D_of_int_exact (a : Z) :
  1 <= a <= SPECSIZE / 2 ->
  exists ma fa,
    D.of_int a = S754_finite false ma fa
    /\ fa < 0 /\ Zpos ma = a * 2 ^ (- fa).
Proof.
  intros Ha. change (SPECSIZE / 2) with 256 in Ha.
  destruct a as [|p|p]; try lia.
  assert (Hd : Zdigits2 (Zpos p) <= 9).
  { rewrite Zdigits2_log2 by lia.
    assert (Z.log2 (Zpos p) < 9); [|lia]. apply Z.log2_lt_pow2; lia. }
  assert (Hd0 : 0 < Zdigits2 (Zpos p)) by (simpl; lia).
  destruct (@binary_round_exact D.prec D.emax D_prec_gt_0 D_prec_lt_emax false p 0)
    as (mz & E & Hmz); unfold D.prec, D.emax, emin; try lia.
  assert (Hf : fexp D.prec D.emax (Zdigits2 (Zpos p) + 0)
               = Zdigits2 (Zpos p) - 53).
  { unfold fexp, emin, D.prec, D.emax. lia. }
  unfold D.prec, D.emax in *. rewrite Hf in E, Hmz.
  exists mz, (Zdigits2 (Zpos p) - 53). split; [exact E|]. split; [lia|].
  rewrite Hmz. f_equal; f_equal; lia.
Qed.

(** The difference of two positive [double]s [x >= y] given on a common
    scale [2^q] is zero or a positive finite number. *)
Lemma D_sub_fin_nonneg (mx : positive) (ex : Z) (my : positive) (ey : Z)
    (q K : Z) :
  q <= ex -> q <= ey ->
  Zpos my * 2 ^ (ey - q) <= Zpos mx * 2 ^ (ex - q) ->
  Zpos mx * 2 ^ (ex - q) < 2 ^ K -> K + q < 1024 ->
  fin_nonneg (D.sub (S754_finite false mx ex) (S754_finite false my ey)) = true.
Proof.
  intros Hqx Hqy Hle Hlt HK.
  unfold D.sub, SFsub. cbn [cond_Zopp].
  set (ez := Z.min ex ey).
  destruct (shl_align_spec mx ex ez) as (Hx1 & Hx2 & _).
  destruct (shl_align_spec my ey ez) as (Hy1 & Hy2 & _).
  assert (Ex : snd (shl_align mx ex ez) = ez) by (rewrite Hx1; unfold ez; lia).
  assert (Ey : snd (shl_align my ey ez) = ez) by (rewrite Hy1; unfold ez; lia).
  rewrite Ex in Hx2. rewrite Ey in Hy2. rewrite Hx2, Hy2.
  assert (Hez : q <= ez) by (unfold ez; lia).
  assert (Px : 2 ^ (ex - q) = 2 ^ (ex - ez) * 2 ^ (ez - q)).
  { rewrite <- Z.pow_add_r by (unfold ez; lia). f_equal. lia. }
  assert (Py : 2 ^ (ey - q) = 2 ^ (ey - ez) * 2 ^ (ez - q)).
  { rewrite <- Z.pow_add_r by (unfold ez; lia). f_equal. lia. }
  assert (Hp : 0 < 2 ^ (ez - q)) by (apply Z.pow_pos_nonneg; lia).
  assert (Hpx : 0 < 2 ^ (ex - ez)) by (apply Z.pow_pos_nonneg; unfold ez; lia).
  assert (Hpy : 0 < 2 ^ (ey - ez)) by (apply Z.pow_pos_nonneg; unfold ez; lia).
  rewrite Px in Hle, Hlt. rewrite Py in Hle.
  set (X := Zpos mx * 2 ^ (ex - ez)) in *.
  set (Y := Zpos my * 2 ^ (ey - ez)) in *.
  assert (HX : 0 < X) by (unfold X; lia).
  assert (HY : 0 < Y) by (unfold Y; lia).
  assert (HYX : Y <= X) by nia.
  assert (HKq : ez - q < K).
  { destruct (Z.lt_ge_cases (ez - q) K) as [|Hge]; [assumption|].
    assert (2 ^ K <= 2 ^ (ez - q)).
    { apply Z.pow_le_mono_r; [lia|exact Hge]. }
    nia. }
  apply (@binary_normalize_fin_nonneg D.prec D.emax D_prec_gt_0 D_prec_lt_emax
           (X - Y) ez (K - (ez - q))).
  - split; [lia|].
    assert (X < 2 ^ (K - (ez - q))); [|lia].
    assert (E2 : 2 ^ K = 2 ^ (K - (ez - q)) * 2 ^ (ez - q)).
    { rewrite <- Z.pow_add_r by lia. f_equal. lia. }
    rewrite E2 in Hlt. rewrite Z.mul_assoc in Hlt. fold X in Hlt. nia.
  - unfold D.emax. lia.
Qed.

Lemma pow_le_inv (a b : Z) : 0 <= a -> 0 <= b -> a ^ 32 <= b ^ 32 -> a <= b.
Proof.
  intros Ha Hb H. destruct (Z.le_gt_cases a b) as [|Hgt]; [assumption|].
  assert (b ^ 32 < a ^ 32) by (apply Z.pow_lt_mono_l; lia). lia.
Qed.

Lemma entry_accurate_repr (i : Z) (lo : double) :
  0 <= i <= SPECSIZE / 2 -> logscale_entry_accurate i lo = true ->
  exists m e mz, entry_repr lo m e mz.
Proof.
  intros Hi H. change (SPECSIZE / 2) with 256 in Hi.
  unfold logscale_entry_accurate in H.
  apply andb_prop in H. destruct H as (H & Hacc).
  apply andb_prop in H. destruct H as (Heq & Hv).
  apply spec_float_eqb_eq in Heq.
  destruct (F.of_double lo) as [s|s| |s m e] eqn:Et; try discriminate.
  destruct s; [discriminate|].
  apply andb_prop in Hacc. destruct Hacc as (He & Hacc).
  apply andb_prop in Hacc. destruct Hacc as (Hlo & Hhi).
  apply Z.leb_le in He, Hlo, Hhi.
  destruct (@valid_float_bounds m e Hv) as (Hd & He2 & _).
  destruct (@D_of_float_exact m e Hv) as (mz & E & Hmz).
  exists m, e, mz. unfold entry_repr.
  split; [exact Et|]. split; [congruence|]. split; [exact Hmz|].
  pose proof (Zdigits2_pos_gt m : 0 < Zdigits2 (Zpos m)) as Hd0.
  split; [lia|]. split; [lia|].
  set (V := Zpos m * 2 ^ (e + 40)) in *.
  assert (HV : 0 < V).
  { unfold V. apply Z.mul_pos_pos; [lia|]. apply Z.pow_pos_nonneg; lia. }
  split.
  - assert (H1 : 2 ^ 40 <= V + 2 ^ 39 + 2 ^ 30); [|lia].
    apply pow_le_inv; [lia | lia |].
    transitivity (2 ^ (i + 1280)); [|exact Hhi].
    rewrite <- Z.pow_mul_r by lia.
    apply Z.pow_le_mono_r; lia.
  - assert (H1 : V + 2 ^ 39 - 2 ^ 30 <= 2 ^ 48); [|lia].
    apply pow_le_inv; [lia | lia |].
    transitivity (2 ^ (i + 1280)); [exact Hlo|].
    rewrite <- Z.pow_mul_r by lia.
    apply Z.pow_le_mono_r; lia.
Qed.

Lemma pow2_add (x y : Z) : 0 <= x -> 0 <= y -> 2 ^ (x + y) = 2 ^ x * 2 ^ y.
Proof. intros. apply Z.pow_add_r; assumption. Qed.

Lemma pow2_pos (x : Z) : 0 <= x -> 0 < 2 ^ x.
Proof. intros. apply Z.pow_pos_nonneg; lia. Qed.

(** The two bin indices of a bucket. *)
Lemma entry_ceil (lo : double) (m : positive) (e : Z) (mz : positive) :
  entry_repr lo m e mz ->
  exists a,
    IEEE.to_int (F.ceilf (F.of_double lo)) = Ok a
    /\ 1 <= a <= SPECSIZE / 2
    /\ forall q, q <= e -> q <= 0 -> Zpos m * 2 ^ (e - q) <= a * 2 ^ (- q).
Proof.
  intros (Et & _ & _ & Hd & He & HV). rewrite Et.
  set (a := IEEE.ceilZ (S754_finite false m e)).
  assert (Ha : 1 <= a <= 256
               /\ forall q, q <= e -> q <= 0 -> Zpos m * 2 ^ (e - q) <= a * 2 ^ (- q)).
  { unfold a, IEEE.ceilZ. cbn [IEEE.Zmantissa IEEE.exponent cond_Zopp].
    destruct (Z.leb_spec 0 e) as [Hpos|Hneg].
    - assert (E1 : 2 ^ (e + 40) = 2 ^ e * 2 ^ 40) by (apply pow2_add; lia).
      rewrite E1 in HV. pose proof (@pow2_pos e Hpos).
      split; [nia|]. intros q Hq Hq0.
      replace (e - q) with (e + - q) by lia. rewrite pow2_add by lia. lia.
    - set (k := - e) in *. assert (Hk : 0 < k <= 40) by (unfold k; lia).
      pose proof (@pow2_pos k ltac:(lia)) as Hp.
      assert (E1 : 2 ^ 40 = 2 ^ (e + 40) * 2 ^ k).
      { rewrite <- pow2_add by (unfold k; lia). f_equal. unfold k. lia. }
      pose proof (@pow2_pos (e + 40) ltac:(lia)) as Hp2.
      assert (Hm : Zpos m < 256 * 2 ^ k).
      { change (2 ^ 48) with (256 * 2 ^ 40) in HV. rewrite E1 in HV. nia. }
      pose proof (Z.mul_div_le (- Zpos m) (2 ^ k) Hp) as Hdiv.
      assert (Hlow : - 256 <= - Zpos m / 2 ^ k).
      { apply Z.div_le_lower_bound; lia. }
      assert (Hup : - Zpos m / 2 ^ k < 0).
      { apply Z.div_lt_upper_bound; lia. }
      split; [lia|]. intros q Hq Hq0.
      replace (- q) with (k + (e - q)) by (unfold k; lia).
      rewrite pow2_add by (unfold k; lia).
      pose proof (@pow2_pos (e - q) ltac:(lia)). nia. }
  destruct Ha as (Har & Hrel). exists a. split; [|split; [exact Har|exact Hrel]].
  unfold F.ceilf, IEEE.ceil. fold a.
  apply to_int_of_small. change (SPECSIZE / 2) with 256. lia.
Qed.

Lemma entry_floor (hi : double) (m : positive) (e : Z) (mz : positive) :
  entry_repr hi m e mz ->
  exists b,
    IEEE.to_int (F.floorf (F.of_double hi)) = Ok b
    /\ 0 <= b < SPECSIZE / 2
    /\ forall q, q <= e -> q <= 0 -> b * 2 ^ (- q) <= Zpos m * 2 ^ (e - q).
Proof.
  intros (Et & _ & _ & Hd & He & HV). rewrite Et.
  set (b := IEEE.floorZ (S754_finite false m e)).
  assert (Hb : 0 <= b < 256
               /\ forall q, q <= e -> q <= 0 -> b * 2 ^ (- q) <= Zpos m * 2 ^ (e - q)).
  { unfold b, IEEE.floorZ. cbn [IEEE.Zmantissa IEEE.exponent cond_Zopp].
    destruct (Z.leb_spec 0 e) as [Hpos|Hneg].
    - assert (E1 : 2 ^ (e + 40) = 2 ^ e * 2 ^ 40) by (apply pow2_add; lia).
      rewrite E1 in HV. pose proof (@pow2_pos e Hpos).
      split; [nia|]. intros q Hq Hq0.
      replace (e - q) with (e + - q) by lia. rewrite pow2_add by lia. lia.
    - set (k := - e) in *. assert (Hk : 0 < k <= 40) by (unfold k; lia).
      pose proof (@pow2_pos k ltac:(lia)) as Hp.
      assert (E1 : 2 ^ 40 = 2 ^ (e + 40) * 2 ^ k).
      { rewrite <- pow2_add by (unfold k; lia). f_equal. unfold k. lia. }
      pose proof (@pow2_pos (e + 40) ltac:(lia)) as Hp2.
      assert (Hm : Zpos m < 256 * 2 ^ k).
      { change (2 ^ 48) with (256 * 2 ^ 40) in HV. rewrite E1 in HV. nia. }
      pose proof (Z.mul_div_le (Zpos m) (2 ^ k) Hp) as Hdiv.
      assert (Hlow : 0 <= Zpos m / 2 ^ k) by (apply Z.div_pos; lia).
      assert (Hup : Zpos m / 2 ^ k < 256).
      { apply Z.div_lt_upper_bound; lia. }
      split; [lia|]. intros q Hq Hq0.
      replace (- q) with (k + (e - q)) by (unfold k; lia).
      rewrite pow2_add by (unfold k; lia).
      pose proof (@pow2_pos (e - q) ltac:(lia)). nia. }
  destruct Hb as (Hbr & Hrel). exists b. split; [|split; [exact Hbr|exact Hrel]].
  unfold F.floorf, IEEE.floor. fold b.
  apply to_int_of_small. change (SPECSIZE / 2) with 256. lia.
Qed.

Lemma entry_mantissa (lo : double) (m : positive) (e : Z) (mz : positive) (q : Z) :
  entry_repr lo m e mz -> q <= Zdigits2 (Zpos m) + e - 53 ->
  Zpos mz * 2 ^ (Zdigits2 (Zpos m) + e - 53 - q) = Zpos m * 2 ^ (e - q)
  /\ 2 ^ 52 <= Zpos mz < 2 ^ 53
  /\ Zdigits2 (Zpos m) + e - 53 <= -45
  /\ Zpos m * 2 ^ (e - q) < 2 ^ (8 - q).
Proof.
  intros (_ & _ & Hmz & Hd & He & HV) Hq. rewrite Hmz.
  pose proof (Zdigits2_bounds (m := Zpos m) ltac:(lia)) as Hb.
  set (d := Zdigits2 (Zpos m)) in *.
  assert (Hmag : d + e <= 8).
  { destruct (Z.le_gt_cases (d + e) 8) as [|Hgt]; [assumption|].
    assert (2 ^ 48 <= 2 ^ (d - 1 + (e + 40)))
      by (apply Z.pow_le_mono_r; lia).
    rewrite pow2_add in H by lia.
    pose proof (@pow2_pos (e + 40) ltac:(lia)). nia. }
  split; [|split; [|split]].
  - rewrite <- Z.mul_assoc, <- pow2_add by lia. f_equal. f_equal. lia.
  - assert (E1 : 2 ^ 52 = 2 ^ (d - 1) * 2 ^ (53 - d))
      by (rewrite <- pow2_add by lia; f_equal; lia).
    assert (E2 : 2 ^ 53 = 2 ^ d * 2 ^ (53 - d))
      by (rewrite <- pow2_add by lia; f_equal; lia).
    pose proof (@pow2_pos (53 - d) ltac:(lia)).
    rewrite E1, E2. nia.
  - lia.
  - assert (Hq' : 0 <= - 40 - q) by lia.
    replace (e - q) with ((e + 40) + (- 40 - q)) by lia.
    replace (8 - q) with (48 + (- 40 - q)) by lia.
    rewrite (@pow2_add (e + 40) (- 40 - q)) by lia.
    rewrite (@pow2_add 48 (- 40 - q)) by lia.
    pose proof (pow2_pos Hq'). nia.
Qed.

(** Two consecutive accurate entries give a well-formed bucket. *)
Lemma accurate_bucket_plan (lo hi : double) (m : positive) (e : Z)
    (mz : positive) (m' : positive) (e' : Z) (mz' : positive) :
  entry_repr lo m e mz -> entry_repr hi m' e' mz' -> SFleb lo hi = true ->
  bucket_plan lo hi.
Proof.
  intros Rlo Rhi Hle.
  destruct (entry_ceil Rlo) as (a & Ha & Har & Harel).
  destruct (entry_floor Rhi) as (b & Hb & Hbr & Hbrel).
  exists a, b. split; [exact Ha|]. split; [exact Hb|].
  split; [exact Har|]. split; [exact Hbr|].
  pose proof Rlo as (_ & Elo & _ & Hd & He & HV).
  pose proof Rhi as (_ & Ehi & _ & Hd' & He' & HV').
  set (f := Zdigits2 (Zpos m) + e - 53) in *.
  set (f' := Zdigits2 (Zpos m') + e' - 53) in *.
  change (SPECSIZE / 2) with 256 in *.
  split; [|split].
  - (* hi - lo *)
    rewrite Elo, Ehi.
    destruct (@entry_mantissa lo m e mz (Z.min f f') Rlo ltac:(fold f; lia))
      as (E1 & B1 & _ & _).
    destruct (@entry_mantissa hi m' e' mz' (Z.min f f') Rhi ltac:(fold f'; lia))
      as (E2 & B2 & _ & L2).
    fold f in E1. fold f' in E2.
    apply (@D_sub_fin_nonneg mz' f' mz f (Z.min f f') (8 - Z.min f f'));
      try lia.
    rewrite Elo, Ehi in Hle. unfold SFleb in Hle. cbn [SFcompare] in Hle.
    destruct (Z.compare_spec f f') as [Ef|Ef|Ef]; try discriminate.
    + change (Pos.compare_cont Eq mz mz') with (Pos.compare mz mz') in Hle.
      assert (Hm : (mz <= mz')%positive).
      { unfold Pos.le. destruct (mz ?= mz')%positive; congruence. }
      rewrite Ef. apply Z.mul_le_mono_nonneg_r; [|lia].
      apply Z.pow_nonneg. lia.
    + rewrite Z.min_l by lia. rewrite Z.sub_diag, Z.mul_1_r.
      assert (2 <= 2 ^ (f' - f)).
      { change 2 with (2 ^ 1) at 1. apply Z.pow_le_mono_r; lia. }
      nia.
  - (* a - lo *)
    destruct (D_of_int_exact Har) as (ma & fa & Ea & Hfa & Hma).
    rewrite Ea, Elo.
    destruct (@entry_mantissa lo m e mz (Z.min fa f) Rlo ltac:(fold f; lia))
      as (E1 & _ & Hf & _).
    fold f in E1, Hf.
    assert (Ex : Zpos ma * 2 ^ (fa - Z.min fa f) = a * 2 ^ (- Z.min fa f)).
    { rewrite Hma, <- Z.mul_assoc, <- pow2_add by lia. f_equal. f_equal. lia. }
    apply (@D_sub_fin_nonneg ma fa mz f (Z.min fa f) (9 - Z.min fa f));
      try lia.
    + rewrite E1, Ex. apply Harel; lia.
    + rewrite Ex. replace (9 - Z.min fa f) with (9 + - Z.min fa f) by lia.
      rewrite pow2_add by lia.
      pose proof (@pow2_pos (- Z.min fa f) ltac:(lia)).
      change (2 ^ 9) with 512. nia.
  - (* hi - b *)
    destruct (Z.eq_dec b 0) as [->|Hb0].
    + rewrite Ehi. reflexivity.
    + destruct (@D_of_int_exact b ltac:(change (SPECSIZE / 2) with 256; lia))
        as (mb & fb & Eb & Hfb & Hmb).
      rewrite Eb, Ehi.
      destruct (@entry_mantissa hi m' e' mz' (Z.min f' fb) Rhi ltac:(fold f'; lia))
        as (E2 & _ & Hf' & L2).
      fold f' in E2, Hf'.
      assert (Ey : Zpos mb * 2 ^ (fb - Z.min f' fb) = b * 2 ^ (- Z.min f' fb)).
      { rewrite Hmb, <- Z.mul_assoc, <- pow2_add by lia. f_equal. f_equal. lia. }
      apply (@D_sub_fin_nonneg mz' f' mb fb (Z.min f' fb) (8 - Z.min f' fb));
        try lia.
      rewrite E2, Ey. apply Hbrel; lia.
Qed.

Lemma nondecreasing_nth (l : list spec_float) (k : nat) (d : spec_float) :
  nondecreasing l = true -> (S k < length l)%nat ->
  SFleb (nth k l d) (nth (S k) l d) = true.
Proof.
  revert k. induction l as [|x l IH]; intros k H Hk; [simpl in Hk; lia|].
  destruct l as [|y l]; [simpl in Hk; lia|].
  cbn [nondecreasing] in H. apply andb_prop in H. destruct H as (Hxy & H).
  destruct k as [|k]; [exact Hxy|].
  change (SFleb (nth k (y :: l) d) (nth (S k) (y :: l) d) = true).
  apply IH; [exact H | simpl in *; lia].
Qed.

Lemma nth_zrange (lo hi : Z) (k : nat) (d : Z) :
  (k < Z.to_nat (hi - lo))%nat -> nth k (zrange lo hi) d = lo + Z.of_nat k.
Proof.
  intros Hk. unfold zrange.
  rewrite (nth_indep _ d ((fun j => lo + Z.of_nat j) 0%nat))
    by (rewrite length_map, length_seq; exact Hk).
  rewrite (map_nth (fun j => lo + Z.of_nat j)), seq_nth by exact Hk.
  reflexivity.
Qed.

(** C10 and C4 rest on this: an accurate table gives every bucket indices in
    range and weights that are not negative. *)
Lemma accurate_table_plan (logscale : list double) :
  logscale_accurate logscale = true -> table_plan logscale.
Proof.
  unfold logscale_accurate. intros H.
  apply andb_prop in H. destruct H as (H & Hmono).
  apply andb_prop in H. destruct H as (Hlen & Hall).
  apply Z.eqb_eq in Hlen. change (SPECSIZE / 2 + 1) with 257 in *.
  rewrite forallb_forall in Hall.
  assert (Hentry : forall i, 0 <= i <= 256 ->
            logscale_entry_accurate i (nth (Z.to_nat i) logscale D.zero) = true).
  { intros i Hi.
    apply (Hall (i, nth (Z.to_nat i) logscale D.zero)).
    replace (i, nth (Z.to_nat i) logscale D.zero)
      with (nth (Z.to_nat i) (combine (zrange 0 257) logscale) (0, D.zero)).
    - apply nth_In. rewrite length_combine, length_zrange. lia.
    - rewrite combine_nth by (rewrite length_zrange; lia).
      rewrite nth_zrange by lia. f_equal. lia. }
  intros i Hi. change (SPECSIZE / 2) with 256 in Hi.
  exists (nth (Z.to_nat i) logscale D.zero),
         (nth (Z.to_nat (i + 1)) logscale D.zero).
  split; [apply at_index_nth; lia|]. split; [apply at_index_nth; lia|].
  destruct (@entry_accurate_repr i _ ltac:(change (SPECSIZE / 2) with 256; lia)
              (Hentry i ltac:(lia))) as (m & e & mz & Rlo).
  destruct (@entry_accurate_repr (i + 1) _ ltac:(change (SPECSIZE / 2) with 256; lia)
              (Hentry (i + 1) ltac:(lia))) as (m' & e' & mz' & Rhi).
  apply (accurate_bucket_plan Rlo Rhi).
  replace (Z.to_nat (i + 1)) with (S (Z.to_nat i)) by lia.
  apply nondecreasing_nth; [exact Hmono | unfold double in *; lia].
Qed.

(* ===================================================================== *)
(** * Properties: the spectra that [run] emits                            *)
(* ===================================================================== *)

(** The transform keeps the length of its argument, whatever the length. *)
Lemma length_fft {C : Type} {ops : ComplexOps C} (x : list C) :
  length (fft x) = length x.
Proof.
  funelim (fft x); [reflexivity|].
  unfold butterflies. rewrite !length_app, !length_map, !length_seq, length_skipn.
  pose proof (Nat.div_mod_eq (length x) 2).
  pose proof (Nat.mod_upper_bound (length x) 2 ltac:(lia)).
  lia.
Qed.

Lemma length_window_table (L : Libm) :
  Z.of_nat (length (window_table L)) = SPECSIZE.
Proof. unfold window_table. rewrite length_map, length_zrange. reflexivity. Qed.

Lemma length_logscale_table (L : Libm) :
  Z.of_nat (length (logscale_table L)) = SPECSIZE / 2 + 1.
Proof. unfold logscale_table. rewrite length_map, length_zrange. reflexivity. Qed.

(** A frame that lies inside the buffer is loaded. *)
Lemma load_frame_ok (window arr : list double) (p : Z) :
  Z.of_nat (length window) = SPECSIZE ->
  0 <= p -> (p + 1) * SPECSIZE <= Z.of_nat (length arr) ->
  exists complexFrame,
    load_frame window arr p = Ok complexFrame
    /\ Z.of_nat (length complexFrame) = SPECSIZE.
Proof.
  intros Hw Hp Hlen. unfold load_frame.
  destruct (@mapM_Forall _ _
              (fun i => w <- at_index window i ;;
                        a <- at_index arr (i + p * SPECSIZE) ;;
                        Ok (D.mul w a, D.zero))
              (fun _ : Complex => True) (zrange 0 SPECSIZE))
    as (cf & E & Hl & _).
  { intros i Hi. apply in_zrange in Hi.
    rewrite (@at_index_nth _ window i D.zero) by lia. cbn [bind].
    rewrite (@at_index_nth _ arr (i + p * SPECSIZE) D.zero) by lia. cbn [bind].
    eauto. }
  exists cf. split; [exact E|]. unfold Complex in *.
  rewrite Hl, length_zrange. reflexivity.
Qed.


(** When a frame is due and lies inside the buffer, [run] returns: it emits
    one spectrum and moves on to the next frame. *)
Lemma run_emits (L : Libm) (s : BufferProcessor) (p n : Z) :
  log10f_conforms L ->
  (compressed s = true -> logscale_accurate (logscale s) = true) ->
  Z.of_nat (length (window s)) = SPECSIZE ->
  pass s = Some p -> numberOfChunks s = Some n -> p <> n ->
  0 <= p -> (p + 1) * SPECSIZE <= Z.of_nat (length (array s)) ->
  exists spectrum,
    run L s = Ok ({| array := array s; window := window s;
                     logscale := logscale s; compressed := compressed s;
                     running := running s;
                     numberOfChunks := numberOfChunks s;
                     interval := interval s; pass := Some (p + 1);
                     timer := timer s |},
                  [calculatedSpectrum spectrum]).
Proof.
  intros Hlog Htbl Hw Hp Hn Hpn Hp0 Hlen. unfold run. rewrite Hp, Hn.
  cbn [read_member bind].
  destruct (Z.eqb_spec p n) as [|_]; [contradiction|].
  destruct (Z.ltb_spec (Z.of_nat (length (array s))) SPECSIZE) as [Hlt|_].
  { rewrite SPECSIZE_eq in *. lia. }
  destruct (load_frame_ok (window s) (array s) Hw Hp0 Hlen) as (cf & E & Hcf).
  rewrite E. cbn [bind].
  destruct (@shape_in_unit L Hlog (logscale s) (compressed s)
              (fft (ops := Complex_ops L) cf)) as (sp & Es & _).
  { intros Hc. apply accurate_table_plan. apply Htbl. exact Hc. }
  { rewrite length_fft. rewrite Hcf. apply Z.leb_le. reflexivity. }
  exists sp. rewrite Es. reflexivity.
Qed.

Lemma mapM_length {A B} (f : A -> outcome B) (l : list A) (ys : list B) :
  mapM f l = Ok ys -> length ys = length l.
Proof.
  revert ys. induction l as [|a l IH]; simpl; intros ys H.
  - injection H as <-. reflexivity.
  - bind_inv H. bind_inv H. injection H as <-. simpl. f_equal. apply IH.
    assumption.
Qed.

(** Every spectrum that [run] emits has [SPECSIZE/2] values in [[0,1]]. *)
Lemma emitted_in_unit (L : Libm) (s s' : BufferProcessor) (sigs : list signal)
    (spectrum : list double) :
  log10f_conforms L ->
  (compressed s = true -> logscale_accurate (logscale s) = true) ->
  run L s = Ok (s', sigs) -> In (calculatedSpectrum spectrum) sigs ->
  Z.of_nat (length spectrum) = SPECSIZE / 2
  /\ Forall (fun x => in_unit x = true) spectrum.
Proof.
  intros Hlog Htbl Hrun Hin.
  apply run_Ok in Hrun. destruct Hrun as (p & n & _ & _ & [H | [H | H]]).
  - destruct H as (_ & _ & ->). destruct Hin as [Hin|[]]. discriminate.
  - destruct H as (_ & _ & _ & ->). destruct Hin.
  - destruct H as (_ & _ & cf & sp & Hload & Hshape & -> & _).
    destruct Hin as [Hin|[]]. injection Hin as ->.
    destruct (@shape_in_unit L Hlog (logscale s) (compressed s)
                (fft (ops := Complex_ops L) cf)) as (sp' & Es & Hl & Hu).
    + intros Hc. apply accurate_table_plan. apply Htbl. exact Hc.
    + rewrite length_fft. unfold load_frame in Hload.
      apply mapM_length in Hload. unfold Complex in *.
      rewrite Hload, length_zrange. apply Z.leb_le. reflexivity.
    + rewrite Es in Hshape. injection Hshape as <-. auto.
Qed.

(** The reference [log10f] conforms. *)
Lemma SFmul_const_not_nan_r (prec emax : Z) (x : spec_float) (s : bool)
    (m : positive) (e : Z) :
  IEEE.is_nan x = false ->
  IEEE.is_nan (SFmul prec emax x (S754_finite s m e)) = false.
Proof.
  destruct x as [sx|sx| |sx mx ex]; simpl; try reflexivity; try discriminate.
  intros _.
  destruct (@binary_round_aux_cases prec emax (xorb sx s) (Zpos (mx * m)) (ex + e)
              loc_Exact ltac:(lia)) as [-> | [-> | (m' & e' & -> & _)]];
    reflexivity.
Qed.

Lemma reference_log10f_conforms : log10f_conforms Reference.libm.
Proof.
  intros x Hx. cbn [log10f Reference.libm]. unfold Reference.log10f.
  destruct x as [s|s| |s m e]; try destruct s; try discriminate Hx;
    try reflexivity.
  apply (of_float_not_nan F_prec_gt_0 F_prec_lt_emax).
  let v := eval vm_compute in (D.literal 30102999566398119521 (10 ^ 20)) in
  change (D.literal 30102999566398119521 (10 ^ 20)) with v.
  apply SFmul_const_not_nan_r.
  let v := eval vm_compute in (D.of_int (2 ^ 24)) in
  change (D.of_int (2 ^ 24)) with v.
  apply SFdiv_const_not_nan.
  apply (binary_normalize_not_nan D_prec_gt_0 D_prec_lt_emax).
Qed.

Lemma reference_logscale_accurate :
  logscale_accurate (logscale_table Reference.libm) = true.
Proof. vm_compute. reflexivity. Qed.

Lemma fresh_schedule_emits :
  exists spectrum,
    run Reference.libm fresh_schedule
    = Ok (finished_schedule, [calculatedSpectrum spectrum]).
Proof.
  apply (@run_emits Reference.libm fresh_schedule 0 1).
  - exact reference_log10f_conforms.
  - intros _. exact reference_logscale_accurate.
  - apply length_window_table.
  - reflexivity.
  - reflexivity.
  - discriminate.
  - lia.
  - reflexivity.
Qed.

(** C4.  Every element of every spectrum that [run] emits lies in [[0,1]],
    in the compressed mode and in the linear mode, for every state of the
    processor.  It holds for every libm whose [log10f] returns a NaN only
    for a NaN or a negative argument; in the compressed mode the logscale
    table has to be accurate. *)
Theorem spectrum_values_in_unit_interval (L : Libm) (s s' : BufferProcessor)
    (sigs : list signal) (spectrum : list double) :
  log10f_conforms L ->
  (compressed s = true -> logscale_accurate (logscale s) = true) ->
  run L s = Ok (s', sigs) -> In (calculatedSpectrum spectrum) sigs ->
  Z.of_nat (length spectrum) = SPECSIZE / 2
  /\ Forall (fun x => in_unit x = true) spectrum.
Proof. apply emitted_in_unit. Qed.

Lemma spectrum_values_in_unit_interval_witness :
  exists spectrum,
    run Reference.libm fresh_schedule
    = Ok (finished_schedule, [calculatedSpectrum spectrum])
    /\ Z.of_nat (length spectrum) = SPECSIZE / 2
    /\ Forall (fun x => in_unit x = true) spectrum.
Proof.
  destruct fresh_schedule_emits as (spectrum & Hrun).
  exists spectrum. split; [exact Hrun|].
  apply (@spectrum_values_in_unit_interval Reference.libm fresh_schedule
           finished_schedule [calculatedSpectrum spectrum] spectrum).
  - exact reference_log10f_conforms.
  - intros _. exact reference_logscale_accurate.
  - exact Hrun.
  - left. reflexivity.
Defined.



Lemma amplitudes_at (L : Libm) (complexFrame : list Complex) (j : Z) :
  SPECSIZE / 2 <= Z.of_nat (length complexFrame) -> 0 <= j < SPECSIZE / 2 ->
  at_index (amplitudes L complexFrame) j
  = Ok (amplitude L (nth (Z.to_nat j) complexFrame (D.zero, D.zero)), D.zero).
Proof.
  intros Hlen Hj. change (SPECSIZE / 2) with 256 in *.
  destruct (amplitudes_clamped L complexFrame Hlen) as (_ & Hl).
  rewrite (@at_index_nth _ (amplitudes L complexFrame) j (D.zero, D.zero))
    by (rewrite Hl; lia).
  f_equal. unfold amplitudes. change (Z.to_nat (SPECSIZE / 2)) with 256%nat.
  rewrite app_nth1 by (rewrite length_map, length_firstn; lia).
  rewrite (nth_indep _ _ (amplitude L (D.zero, D.zero), D.zero))
    by (rewrite length_map, length_firstn; lia).
  pose proof (map_nth (fun c => (amplitude L c, D.zero))
                (firstn 256 complexFrame) (D.zero, D.zero) (Z.to_nat j)) as E.
  cbv beta in E. rewrite E. f_equal. f_equal.
  rewrite <- (firstn_skipn 256 complexFrame) at 2.
  rewrite app_nth1 by (rewrite length_firstn; lia). reflexivity.
Qed.

(** C10.  With an accurate logscale table, bucket [i] of the compressed mode
    is computed without a fault, and every index at which it reads
    [complexFrame] lies in [[0, SPECSIZE/2)]: the entry read there is the
    clamped amplitude that the amplitude loop has stored. *)
Theorem bucket_reads_clamped_amplitudes (L : Libm) (logscale : list double)
    (complexFrame : list Complex) (i : Z) :
  logscale_accurate logscale = true ->
  SPECSIZE <= Z.of_nat (length complexFrame) ->
  0 <= i < SPECSIZE / 2 ->
  exists sum reads,
    bucket logscale (amplitudes L complexFrame) i = Ok (sum, reads)
    /\ Forall (fun j =>
                 0 <= j < SPECSIZE / 2
                 /\ at_index (amplitudes L complexFrame) j
                    = Ok (amplitude L (nth (Z.to_nat j) complexFrame
                                           (D.zero, D.zero)), D.zero))
              reads.
Proof.
  intros Htbl Hlen Hi.
  assert (Hlen' : SPECSIZE / 2 <= Z.of_nat (length complexFrame)).
  { change (SPECSIZE / 2) with 256. rewrite SPECSIZE_eq in Hlen. lia. }
  destruct (amplitudes_clamped L complexFrame Hlen') as (Hc & _).
  destruct (@accurate_table_plan logscale Htbl i Hi) as (lo & hi & Hlo & Hhi & Hplan).
  destruct (@bucket_ok logscale (amplitudes L complexFrame) i lo hi Hc Hlo Hhi Hplan)
    as (sum & reads & E & _ & Hr).
  exists sum, reads. split; [exact E|].
  eapply Forall_impl; [|exact Hr]. intros j Hj. split; [exact Hj|].
  apply amplitudes_at; assumption.
Qed.

Lemma bucket_reads_clamped_amplitudes_witness :
  exists sum reads,
    bucket (logscale_table Reference.libm)
      (amplitudes Reference.libm (repeat (D.zero, D.zero) 512)) 255
    = Ok (sum, reads)
    /\ Forall (fun j =>
                 0 <= j < SPECSIZE / 2
                 /\ at_index (amplitudes Reference.libm (repeat (D.zero, D.zero) 512)) j
                    = Ok (amplitude Reference.libm
                            (nth (Z.to_nat j) (repeat (D.zero, D.zero) 512)
                                 (D.zero, D.zero)), D.zero))
              reads.
Proof.
  apply (@bucket_reads_clamped_amplitudes Reference.libm
           (logscale_table Reference.libm) (repeat (D.zero, D.zero) 512) 255).
  - exact reference_logscale_accurate.
  - rewrite repeat_length. unfold SPECSIZE. lia.
  - change (SPECSIZE / 2) with 256. lia.
Defined.

(* ===================================================================== *)
(** * Properties: the transform                                           *)
(* ===================================================================== *)

(** The defining equation of [fft]. *)
Lemma fft_step {C : Type} {ops : ComplexOps C} (x : list C) :
  fft x = if le_lt_dec (length x) 1 then x
          else butterflies (length x)
                 (fft (slice 0 (length x / 2) 2 x))
                 (fft (slice 1 (length x / 2) 2 x)) x.
Proof.
  rewrite fft_equation_1. destruct (le_lt_dec (length x) 1); reflexivity.
Qed.






Module ExactTransform.
Import Exact.
Local Open Scope R_scope.

Local Ltac cr_unfold :=
  cbn [cadd csub cmul cdiv cconj czero of_size CR_ops fst snd] in *.































End ExactTransform.


Module ExactRoundTrip.
Import Exact ExactTransform.
Local Open Scope R_scope.

Local Ltac cr_unfold :=
  cbn [cadd csub cmul cdiv cconj czero of_size CR_ops fst snd] in *.



End ExactRoundTrip.




(* ===================================================================== *)
(** * Further properties of the scheduler                                 *)
(* ===================================================================== *)

(** X1.  Until a first buffer has been accepted, a tick of the timer (which
    the constructor starts) compares the members [pass] and
    [numberOfChunks], which nothing has initialised. *)
Theorem tick_before_first_buffer_is_indeterminate (L : Libm) (s : BufferProcessor) :
  reachable L s -> numberOfChunks s = None ->
  run L s = Fault IndeterminateRead.
Proof.
  intros Hr Hn. apply scheduled_reachable in Hr.
  destruct Hr as (_ & _ & _ & H). rewrite Hn in H. destruct H as (_ & Hp).
  unfold run. rewrite Hp. reflexivity.
Qed.

Lemma tick_before_first_buffer_is_indeterminate_witness :
  run Reference.libm (BufferProcessor_new Reference.libm)
  = Fault IndeterminateRead.
Proof.
  apply tick_before_first_buffer_is_indeterminate; [apply reach_new | reflexivity].
Defined.

(** A stored buffer of a processor that has a schedule holds a full
    window. *)
Lemma scheduled_full_window L s n :
  scheduled L s -> numberOfChunks s = Some n ->
  SPECSIZE <= Z.of_nat (length (array s)).
Proof.
  intros (_ & _ & _ & H) Hn. rewrite Hn in H. destruct H as (-> & H1 & _).
  rewrite SPECSIZE_eq in *.
  destruct (Z.le_gt_cases 512 (Z.of_nat (length (array s)))) as [|Hlt]; [assumption|].
  rewrite Z.div_small in H1 by lia. lia.
Qed.

(** X2.  In a state the processor can reach, the stored buffer is never
    shorter than a window when [run] gets past the test of completion: the
    return for [bufferSize < SPECSIZE] is not taken, and a tick that
    returns emits exactly one signal. *)
Theorem every_tick_emits_one_signal (L : Libm) (s s' : BufferProcessor)
    (sigs : list signal) :
  reachable L s -> run L s = Ok (s', sigs) ->
  SPECSIZE <= Z.of_nat (length (array s)) /\ exists sig, sigs = [sig].
Proof.
  intros Hr H. apply scheduled_reachable in Hr.
  apply run_Ok in H. destruct H as (p & n & Hp & Hn & H).
  pose proof (scheduled_full_window Hr Hn) as Hlen.
  split; [exact Hlen|].
  destruct H as [H | [H | H]].
  - destruct H as (_ & _ & ->). eauto.
  - destruct H as (_ & Hlt & _). lia.
  - destruct H as (_ & _ & cf & sp & _ & _ & -> & _). eauto.
Qed.

Lemma fresh_schedule_reachable : reachable Reference.libm fresh_schedule.
Proof.
  apply (@reach_processBuffer Reference.libm (BufferProcessor_new Reference.libm)
           (repeat D.zero 512) 1000 fresh_schedule).
  - apply reach_new.
  - destruct (@processBuffer_full_window Reference.libm
                (BufferProcessor_new Reference.libm) (repeat D.zero 512) 1000)
      as (_ & ->).
    + apply reach_new.
    + rewrite repeat_length. rewrite SPECSIZE_eq. lia.
    + reflexivity.
Qed.

Lemma finished_schedule_reachable : reachable Reference.libm finished_schedule.
Proof.
  destruct fresh_schedule_emits as (spectrum & Hrun).
  exact (reach_run fresh_schedule_reachable Hrun).
Qed.

Lemma every_tick_emits_one_signal_witness :
  SPECSIZE <= Z.of_nat (length (array finished_schedule))
  /\ exists sig, [allDone] = [sig].
Proof.
  apply (@every_tick_emits_one_signal Reference.libm finished_schedule
           finished_schedule [allDone]).
  - exact finished_schedule_reachable.
  - exact (run_finished Reference.libm finished_schedule eq_refl eq_refl).
Defined.

(** X3.  The processor never leaves the compressed mode: [compressed] is
    set by the constructor and written nowhere else, so the branch of [run]
    for the linear spectrum is not taken. *)
Theorem compressed_mode_is_never_left (L : Libm) (s : BufferProcessor) :
  reachable L s -> compressed s = true.
Proof.
  intros Hr. apply scheduled_reachable in Hr. destruct Hr as (_ & _ & Hc & _).
  exact Hc.
Qed.

Lemma compressed_mode_is_never_left_witness :
  compressed finished_schedule = true.
Proof.
  apply (@compressed_mode_is_never_left Reference.libm).
  exact finished_schedule_reachable.
Defined.

(** Once a buffer has been accepted, a tick of the timer returns: with the
    completion signal when the schedule is worked off, and else with a
    spectrum of [SPECSIZE/2] values in [[0,1]]. *)
Lemma run_ready (L : Libm) (s : BufferProcessor) :
  log10f_conforms L -> logscale_accurate (logscale_table L) = true ->
  reachable L s -> numberOfChunks s <> None ->
  exists s' sigs,
    run L s = Ok (s', sigs)
    /\ reachable L s' /\ numberOfChunks s' = numberOfChunks s
    /\ array s' = array s
    /\ Forall good_signal sigs
    /\ (pass s = numberOfChunks s -> s' = s /\ sigs = [allDone])
    /\ (pass s <> numberOfChunks s ->
        exists p spectrum, pass s = Some p /\ pass s' = Some (p + 1)
                           /\ sigs = [calculatedSpectrum spectrum]).
Proof.
  intros Hlog Htab Hr Hn.
  pose proof (scheduled_reachable Hr) as Hs.
  destruct (numberOfChunks s) as [n|] eqn:En; [clear Hn | congruence].
  pose proof (scheduled_full_window Hs En) as Hlen.
  destruct Hs as (Hw & Hl & Hc & Hs). rewrite En in Hs.
  destruct Hs as (Hnd & Hn1 & p & Hp & Hpn).
  destruct (Z.eq_dec p n) as [->|Hne].
  - exists s, [allDone]. rewrite (run_finished L s Hp En).
    repeat split; auto.
    + repeat constructor.
    + intros Hd. congruence.
  - assert (Hfit : (p + 1) * SPECSIZE <= Z.of_nat (length (array s))).
    { rewrite SPECSIZE_eq in *.
      pose proof (Z.mul_div_le (Z.of_nat (length (array s))) 512 ltac:(lia)).
      nia. }
    destruct (@run_emits L s p n) as (spectrum & Hrun); auto; try lia.
    + intros _. rewrite Hl. exact Htab.
    + rewrite Hw. apply length_window_table.
    + eexists _, _. split; [exact Hrun|].
      split; [exact (reach_run Hr Hrun)|].
      split; [simpl; congruence|]. split; [reflexivity|]. split.
      * constructor; [|constructor].
        apply (@emitted_in_unit L s _ _ spectrum Hlog) in Hrun.
        -- exact Hrun.
        -- intros _. rewrite Hl. exact Htab.
        -- left. reflexivity.
      * split.
        -- intros Hd. congruence.
        -- intros _. exists p, spectrum. simpl. auto.
Qed.

Lemma ticks_schedule (L : Libm) :
  log10f_conforms L -> logscale_accurate (logscale_table L) = true ->
  forall (k : nat) (s : BufferProcessor) (p n : Z),
    reachable L s -> pass s = Some p -> numberOfChunks s = Some n ->
    p + Z.of_nat k = n ->
    exists s' spectra,
      ticks L k s = Ok (s', map calculatedSpectrum spectra)
      /\ length spectra = k /\ Forall good_spectrum spectra
      /\ reachable L s' /\ pass s' = Some n /\ numberOfChunks s' = Some n
      /\ array s' = array s.
Proof.
  intros Hlog Htab. induction k as [|k IH]; intros s p n Hr Hp Hn Hk.
  - exists s, []. simpl. simpl in Hk. rewrite Z.add_0_r in Hk. subst n.
    repeat split; auto.
  - destruct (@run_ready L s Hlog Htab Hr) as (s1 & sigs & Hrun & Hr1 & Hn1 & Ha1 & Hg & _ & Hstep).
    { congruence. }
    destruct Hstep as (p' & spectrum & Hp' & Hp1 & ->).
    { rewrite Hp, Hn. intros E. injection E as E. lia. }
    rewrite Hp in Hp'. injection Hp' as <-.
    destruct (IH s1 (p + 1) n Hr1 Hp1) as (s2 & spectra & Ht & Hlen & Hgood & Hr2 & Hp2 & Hn2 & Ha2).
    { congruence. }
    { lia. }
    exists s2, (spectrum :: spectra). simpl. rewrite Hrun. simpl. rewrite Ht. simpl.
    repeat split; auto.
    + constructor; [|exact Hgood]. inversion Hg; subst. assumption.
    + congruence.
Qed.

(** X4.  A buffer with [n >= 1] full windows is worked off by [n] ticks of
    the timer: none of them faults, each emits one spectrum of [SPECSIZE/2]
    values in [[0,1]], and the tick after them emits the completion
    signal. *)
Theorem schedule_emits_one_spectrum_per_chunk (L : Libm) (s : BufferProcessor)
    (_array : list double) (duration : Z) :
  log10f_conforms L -> logscale_accurate (logscale_table L) = true ->
  reachable L s -> SPECSIZE <= Z.of_nat (length _array) ->
  exists s1 s2 spectra,
    processBuffer s _array duration = Ok s1
    /\ ticks L (Z.to_nat (Z.of_nat (length _array) / SPECSIZE)) s1
       = Ok (s2, map calculatedSpectrum spectra)
    /\ Z.of_nat (length spectra) = Z.of_nat (length _array) / SPECSIZE
    /\ Forall good_spectrum spectra
    /\ run L s2 = Ok (s2, [allDone]).
Proof.
  intros Hlog Htab Hr Hlen.
  destruct (processBuffer_full_window _array duration Hr Hlen) as (Hn1 & Hpb).
  set (n := Z.of_nat (length _array) / SPECSIZE) in *.
  match type of Hpb with _ = Ok ?r => set (s1 := r) in * end.
  assert (Hr1 : reachable L s1) by exact (reach_processBuffer _ _ Hr Hpb).
  destruct (@ticks_schedule L Hlog Htab (Z.to_nat n) s1 0 n Hr1)
    as (s2 & spectra & Ht & Hl & Hg & Hr2 & Hp2 & Hn2 & _);
    [reflexivity | reflexivity | lia |].
  exists s1, s2, spectra. repeat split; auto.
  - lia.
  - exact (run_finished L s2 Hp2 Hn2).
Qed.

Lemma schedule_emits_one_spectrum_per_chunk_witness :
  exists s1 s2 spectra,
    processBuffer (BufferProcessor_new Reference.libm) (repeat D.zero 1024) 200
    = Ok s1
    /\ ticks Reference.libm
         (Z.to_nat (Z.of_nat (length (repeat D.zero 1024)) / SPECSIZE)) s1
       = Ok (s2, map calculatedSpectrum spectra)
    /\ Z.of_nat (length spectra)
       = Z.of_nat (length (repeat D.zero 1024)) / SPECSIZE
    /\ Forall good_spectrum spectra
    /\ run Reference.libm s2 = Ok (s2, [allDone]).
Proof.
  apply schedule_emits_one_spectrum_per_chunk.
  - exact reference_log10f_conforms.
  - exact reference_logscale_accurate.
  - apply reach_new.
  - rewrite repeat_length. rewrite SPECSIZE_eq. lia.
Defined.

(* ===================================================================== *)
(** * Further properties of FFTCalc                                       *)
(* ===================================================================== *)





(* ===================================================================== *)
(** * Further properties of the slot of calculatedSpectrum                *)
(* ===================================================================== *)

(** The first [r] iterations of the loop, as long as they stay inside the
    spectrum and inside [m_spectrum]. *)
Lemma decimate_loop_prefix (spectrum : list double) (step : Z) :
  forall (r fuel : nat) (done rest : list double) (i : Z),
    (r <= length rest)%nat ->
    (forall k, (k < r)%nat ->
               0 <= i + Z.of_nat k * step < Z.of_nat (length spectrum)) ->
    decimate_loop (r + fuel) spectrum (done ++ rest) step i (Z.of_nat (length done))
    = decimate_loop fuel spectrum
        ((done ++ map (fun k => nth (Z.to_nat (i + Z.of_nat k * step)) spectrum D.zero)
                      (seq 0 r))
         ++ skipn r rest)
        step (i + Z.of_nat r * step) (Z.of_nat (length done) + Z.of_nat r).
Proof.
  induction r as [|r IH]; intros fuel done rest i Hr Hin.
  - cbn [seq map skipn Nat.add]. rewrite app_nil_r.
    f_equal; lia.
  - destruct rest as [|y rest]; [simpl in Hr; lia|].
    assert (H0 : 0 <= i < Z.of_nat (length spectrum)).
    { specialize (Hin 0%nat ltac:(lia)). simpl in Hin. lia. }
    change (S r + fuel)%nat with (S (r + fuel)).
    cbn [decimate_loop].
    destruct (Z.ltb_spec i (Z.of_nat (length spectrum))); [|lia].
    rewrite (at_index_nth spectrum D.zero H0). cbn [bind].
    rewrite store_app.
    replace (done ++ nth (Z.to_nat i) spectrum D.zero :: rest)
      with ((done ++ [nth (Z.to_nat i) spectrum D.zero]) ++ rest)
      by (rewrite <- app_assoc; reflexivity).
    replace (Z.of_nat (length done) + 1)
      with (Z.of_nat (length (done ++ [nth (Z.to_nat i) spectrum D.zero])))
      by (rewrite length_app; simpl; lia).
    rewrite IH.
    + f_equal.
      * cbn [seq map skipn]. rewrite Z.mul_0_l, Z.add_0_r.
        rewrite <- !app_assoc. cbn [app]. do 3 f_equal.
        rewrite <- seq_shift, map_map.
        apply map_ext. intros k. f_equal. f_equal. lia.
      * lia.
      * rewrite length_app. simpl. lia.
    + simpl in Hr. lia.
    + intros k Hk. specialize (Hin (S k) ltac:(lia)). lia.
Qed.

(** The slot on a spectrum whose length [n] has [n mod 19 <= n / 19]. *)
Lemma on_calculatedSpectrum_stores (m_spectrum spectrum : list double) :
  Z.of_nat (length spectrum) mod 19 <= Z.of_nat (length spectrum) / 19 ->
  on_calculatedSpectrum m_spectrum spectrum
  = Some (Ok (map (fun k => nth (Z.to_nat (Z.of_nat k
                                            * (Z.of_nat (length spectrum) / 19)))
                                spectrum D.zero)
                  (seq 0 (stored (Z.of_nat (length spectrum))))
              ++ skipn (stored (Z.of_nat (length spectrum)))
                       (resize m_spectrum 20))).
Proof.
  intros H. unfold on_calculatedSpectrum.
  set (n := Z.of_nat (length spectrum)) in *.
  change (20 - 1) with 19. change (Z.to_nat 20) with 20%nat.
  assert (Hn : 0 <= n) by (unfold n; lia).
  pose proof (Z.div_mod n 19 ltac:(lia)) as Hdm.
  pose proof (Z.mod_pos_bound n 19 ltac:(lia)) as Hmod.
  assert (Hst : (stored n <= 20)%nat).
  { unfold stored. destruct (n =? 0); [lia|]. destruct (n mod 19 =? 0); lia. }
  pose proof (@decimate_loop_picks spectrum (n / 19) (stored n) 21 []
                (resize m_spectrum 20) 0) as P.
  cbn [app length] in P. change (Z.of_nat 0) with 0 in P.
  rewrite P; clear P.
  - f_equal.
  - lia.
  - rewrite length_resize. exact Hst.
  - intros k Hk. fold n. unfold stored in Hk.
    destruct (Z.eqb_spec n 0); [lia|].
    destruct (Z.eqb_spec (n mod 19) 0); nia.
  - fold n. unfold stored.
    destruct (Z.eqb_spec n 0); [simpl; lia|].
    destruct (Z.eqb_spec (n mod 19) 0); nia.
Qed.

(** X6.  What the slot does with a spectrum of [n] elements, for every [n]
    with [n mod 19 <= n / 19]: it stores the elements [0, step, 2 step,
    ...] for the step [n / 19], which are 19 of them when 19 divides [n]
    and 20 otherwise.  In the first case the last display value is not
    written: it keeps what [m_spectrum] held (0.0 in a new slot). *)
Theorem display_stores_every_step_th (m_spectrum spectrum : list double) :
  Z.of_nat (length spectrum) mod 19 <= Z.of_nat (length spectrum) / 19 ->
  on_calculatedSpectrum m_spectrum spectrum
  = Some (Ok (map (fun k => nth (Z.to_nat (Z.of_nat k
                                            * (Z.of_nat (length spectrum) / 19)))
                                spectrum D.zero)
                  (seq 0 (stored (Z.of_nat (length spectrum))))
              ++ skipn (stored (Z.of_nat (length spectrum)))
                       (resize m_spectrum 20))).
Proof. apply on_calculatedSpectrum_stores. Qed.

Lemma display_stores_every_step_th_witness :
  on_calculatedSpectrum (repeat D.one 20) (repeat D.zero 38)
  = Some (Ok (map (fun k => nth (Z.to_nat (Z.of_nat k
                               * (Z.of_nat (length (repeat D.zero 38)) / 19)))
                                (repeat D.zero 38) D.zero)
                  (seq 0 (stored (Z.of_nat (length (repeat D.zero 38)))))
              ++ skipn (stored (Z.of_nat (length (repeat D.zero 38))))
                       (resize (repeat D.one 20) 20))).
Proof.
  apply display_stores_every_step_th. vm_compute. discriminate.
Defined.

(** X7.  For every other length of the spectrum, that is [n / 19 < n mod
    19] (1 to 18 elements, where the step is 0 and [i] never advances; 21
    to 37; 41 to 56; ...), the loop is still inside the spectrum after 20
    iterations, and the 21st stores at [m_spectrum[20]], outside the 20
    elements. *)
Theorem display_overruns_its_20_slots (m_spectrum spectrum : list double) :
  Z.of_nat (length spectrum) / 19 < Z.of_nat (length spectrum) mod 19 ->
  on_calculatedSpectrum m_spectrum spectrum = Some (Fault IndexOutOfRange).
Proof.
  intros H. unfold on_calculatedSpectrum.
  set (n := Z.of_nat (length spectrum)) in *.
  change (20 - 1) with 19. change (S (Z.to_nat 20)) with (20 + 1)%nat.
  change (Z.to_nat 20) with 20%nat.
  assert (Hn : 0 <= n) by (unfold n; lia).
  pose proof (Z.div_mod n 19 ltac:(lia)) as Hdm.
  pose proof (Z.mod_pos_bound n 19 ltac:(lia)) as Hmod.
  assert (Hq : 0 <= n / 19) by (apply Z.div_pos; lia).
  pose proof (@decimate_loop_prefix spectrum (n / 19) 20 1 []
                (resize m_spectrum 20) 0) as P.
  cbn [app length] in P. change (Z.of_nat 0) with 0 in P.
  rewrite P; clear P.
  - rewrite skipn_all2 by (rewrite length_resize; lia). rewrite app_nil_r.
    cbn [decimate_loop]. fold n.
    destruct (Z.ltb_spec (0 + Z.of_nat 20 * (n / 19)) n); [|lia].
    rewrite (@at_index_nth _ spectrum (0 + Z.of_nat 20 * (n / 19)) D.zero)
      by (fold n; lia).
    cbn [bind]. unfold store. rewrite length_map, length_seq.
    reflexivity.
  - rewrite length_resize. lia.
  - intros k Hk. fold n. nia.
Qed.

Lemma display_overruns_its_20_slots_witness :
  on_calculatedSpectrum [] (repeat D.zero 30) = Some (Fault IndexOutOfRange).
Proof.
  apply display_overruns_its_20_slots. vm_compute. reflexivity.
Defined.

(* ===================================================================== *)
(** * Further properties of the transform                                 *)
(* ===================================================================== *)



(** X9.  A sequence of odd length keeps its last element: the loop of
    [fft] writes [x[k]] and [x[k + N/2]] for [k < N/2] only, and the two
    halves taken from [x] leave the last element out.  This holds in any
    arithmetic, the doubles of the program included. *)
Theorem fft_keeps_last_of_odd_length {C : Type} {ops : ComplexOps C}
    (x : list C) (d : C) :
  Nat.odd (length x) = true ->
  nth (length x - 1) (fft x) d = nth (length x - 1) x d.
Proof.
  intros Hodd. rewrite fft_step.
  destruct (le_lt_dec (length x) 1) as [|Hgt]; [reflexivity|].
  unfold butterflies.
  pose proof (Nat.div_mod_eq (length x) 2) as Hdm.
  assert (Hm : (length x mod 2 = 1)%nat).
  { rewrite <- Nat.bit0_mod. rewrite Nat.bit0_odd, Hodd. reflexivity. }
  set (h := (length x / 2)%nat) in *.
  assert (Hl : (length x - 1 = 2 * h)%nat) by lia.
  rewrite Hl.
  rewrite app_nth2 by (rewrite length_map, length_seq; lia).
  rewrite app_nth2 by (rewrite !length_map, !length_seq; lia).
  rewrite !length_map, !length_seq.
  replace (2 * h - h - h)%nat with 0%nat by lia.
  rewrite nth_skipn. f_equal. lia.
Qed.

Lemma fft_keeps_last_of_odd_length_witness :
  nth (length ((D.one, D.zero) :: (D.zero, D.one) :: (D.one, D.one) :: nil) - 1)
      (fft (ops := Complex_ops Reference.libm)
         ((D.one, D.zero) :: (D.zero, D.one) :: (D.one, D.one) :: nil))
      (D.zero, D.zero)
  = nth (length ((D.one, D.zero) :: (D.zero, D.one) :: (D.one, D.one) :: nil) - 1)
        ((D.one, D.zero) :: (D.zero, D.one) :: (D.one, D.one) :: nil)
        (D.zero, D.zero).
Proof.
  apply (@fft_keeps_last_of_odd_length Complex (Complex_ops Reference.libm)).
  reflexivity.
Defined.

(* ===================================================================== *)
(** * Properties of MediaService::processBuffer                           *)
(* ===================================================================== *)

Lemma zrange_snoc (k : nat) :
  zrange 0 (Z.of_nat (S k)) = zrange 0 (Z.of_nat k) ++ [Z.of_nat k].
Proof.
  unfold zrange. rewrite !Z.sub_0_r, !Nat2Z.id. rewrite seq_S, map_app.
  reflexivity.
Qed.

Lemma skipn_cons_nth {A} (l : list A) (k : nat) (d : A) :
  (k < length l)%nat -> skipn k l = nth k l d :: skipn (S k) l.
Proof.
  revert k. induction l as [|a l IH]; intros k Hk; [simpl in Hk; lia|].
  destruct k as [|k]; [reflexivity|].
  simpl in Hk. cbn [skipn nth]. apply IH. lia.
Qed.

(** A loop that stores a value at every index in turn builds the list of
    these values. *)
Lemma fold_store (body : list double -> Z -> outcome (list double))
    (g : Z -> double) (n : nat) (s0 : list double) :
  length s0 = n ->
  (forall s i, length s = n -> 0 <= i < Z.of_nat n -> body s i = store s i (g i)) ->
  fold_left (fun acc i => s <- acc ;; body s i) (zrange 0 (Z.of_nat n)) (Ok s0)
  = Ok (map g (zrange 0 (Z.of_nat n))).
Proof.
  intros Hlen Hbody.
  assert (P : forall k, (k <= n)%nat ->
            fold_left (fun acc i => s <- acc ;; body s i)
                      (zrange 0 (Z.of_nat k)) (Ok s0)
            = Ok (map g (zrange 0 (Z.of_nat k)) ++ skipn k s0)).
  { induction k as [|k IH]; intros Hk.
    - reflexivity.
    - rewrite zrange_snoc, fold_left_app, IH by lia.
      cbn [fold_left bind].
      assert (Hl : length (map g (zrange 0 (Z.of_nat k))) = k).
      { rewrite length_map, length_zrange. lia. }
      rewrite Hbody.
      + rewrite (@skipn_cons_nth _ s0 k D.zero) by lia.
        pose proof (store_app (map g (zrange 0 (Z.of_nat k))) (g (Z.of_nat k))
                      (nth k s0 D.zero) (skipn (S k) s0)) as Hst.
        rewrite Hl in Hst. rewrite Hst.
        rewrite map_app. cbn [map]. rewrite <- app_assoc. reflexivity.
      + rewrite length_app, Hl, length_skipn. lia.
      + lia. }
  rewrite P by lia. rewrite skipn_all2 by lia. rewrite app_nil_r. reflexivity.
Qed.

Lemma SFeqb_refl (x : spec_float) : SFeqb x x = negb (IEEE.is_nan x).
Proof.
  unfold SFeqb. destruct x as [s|s| |s m e]; try destruct s; cbn; try reflexivity.
  - rewrite Z.compare_refl, Pos.compare_refl. reflexivity.
  - rewrite Z.compare_refl, Pos.compare_refl. reflexivity.
Qed.

Lemma split_at_index {A} (s : list A) (i : Z) (d : A) :
  0 <= i < Z.of_nat (length s) ->
  exists done y rest, s = done ++ y :: rest /\ Z.of_nat (length done) = i.
Proof.
  intros Hi.
  exists (firstn (Z.to_nat i) s), (nth (Z.to_nat i) s d), (skipn (S (Z.to_nat i)) s).
  split.
  - rewrite <- (@skipn_cons_nth _ s (Z.to_nat i) d) by lia.
    symmetry. apply firstn_skipn.
  - rewrite length_firstn. lia.
Qed.

Lemma store_overwrite (s : list double) (i : Z) (x z : double) :
  0 <= i < Z.of_nat (length s) ->
  exists s1, store s i x = Ok s1 /\ at_index s1 i = Ok x
             /\ store s1 i z = store s i z /\ length s1 = length s.
Proof.
  intros Hi.
  destruct (split_at_index s D.zero Hi) as (done & y & rest & -> & <-).
  exists (done ++ x :: rest). rewrite !store_app. repeat split.
  - rewrite (@at_index_nth _ (done ++ x :: rest) _ D.zero)
      by (rewrite length_app; simpl; lia).
    rewrite Nat2Z.id. rewrite app_nth2 by lia. rewrite Nat.sub_diag. reflexivity.
  - rewrite !length_app. reflexivity.
Qed.

Lemma convert_float_ok (data : list (float * float)) (n : nat) (s0 : list double) :
  length s0 = n -> (n <= length data)%nat ->
  convert_float data (Z.of_nat n) s0
  = Ok (map (float_sample data) (zrange 0 (Z.of_nat n))).
Proof.
  intros Hlen Hdata. unfold convert_float.
  apply (@fold_store
           (fun sample i =>
              d <- at_index data i ;;
              sample <- store sample i
                          (D.div (D.of_float (fst d)) (D.literal 100003 100000)) ;;
              x <- at_index sample i ;;
              y <- at_index sample i ;;
              if negb (SFeqb x y) then store sample i (D.of_int 0) else Ok sample)
           (float_sample data) n s0 Hlen).
  intros s i Hs Hi.
  rewrite (@at_index_nth _ data i (F.zero, F.zero)) by lia. cbn [bind].
  set (x := D.div (D.of_float (fst (nth (Z.to_nat i) data (F.zero, F.zero))))
                  (D.literal 100003 100000)).
  destruct (@store_overwrite s i x (D.of_int 0)) as (s1 & H1 & H2 & H3 & H4); [lia|].
  rewrite H1. cbn [bind]. rewrite H2. cbn [bind]. rewrite SFeqb_refl, negb_involutive.
  unfold float_sample. fold x.
  destruct (IEEE.is_nan x); [exact H3 | symmetry; exact H1].
Qed.

Lemma convert_int_ok (data : list (Z * Z)) (peakValue : double) (n : nat)
    (s0 : list double) :
  length s0 = n -> (n <= length data)%nat ->
  convert_int data peakValue (Z.of_nat n) s0
  = Ok (map (fun i => D.div (D.of_int (fst (nth (Z.to_nat i) data (0, 0)))) peakValue)
            (zrange 0 (Z.of_nat n))).
Proof.
  intros Hlen Hdata. unfold convert_int.
  apply (@fold_store
           (fun sample i =>
              d <- at_index data i ;;
              store sample i (D.div (D.of_int (fst d)) peakValue))
           (fun i => D.div (D.of_int (fst (nth (Z.to_nat i) data (0, 0)))) peakValue)
           n s0 Hlen).
  intros s i Hs Hi.
  rewrite (@at_index_nth _ data i (0, 0)) by lia. reflexivity.
Qed.

Lemma float_sample_not_nan (data : list (float * float)) (i : Z) :
  IEEE.is_nan (float_sample data i) = false.
Proof.
  unfold float_sample.
  destruct (IEEE.is_nan (D.div _ _)) eqn:E; [reflexivity | exact E].
Qed.

(** What [processBuffer] does with a buffer whose frames can be read. *)
Lemma MediaService_processBuffer_ok (CHAR_MAX : Z) (m : MediaService)
    (buffer : QAudioBuffer) :
  readable buffer ->
  exists m',
    MediaService_processBuffer CHAR_MAX m buffer = Ok m'
    /\ m_spectrum m' = m_spectrum m
    /\ (((frameCount buffer < 512
          \/ QAudioFormat.channelCount (format buffer) <> 2) /\ m' = m)
        \/ (512 <= frameCount buffer
            /\ QAudioFormat.channelCount (format buffer) = 2
            /\ Z.of_nat (length (sample m')) = frameCount buffer
            /\ (QAudioFormat.sampleType (format buffer) = QAudioFormat.Float ->
                sample m' = map (float_sample (data_S32F buffer))
                                (zrange 0 (frameCount buffer)))
            /\ calculator m'
               = calc (calculator m) (sample m')
                   (narrow_int
                      (Z.quot (QAudioFormat.durationForBytes (format buffer)
                                 (frameCount buffer)) 1000)))).
Proof.
  intros Hread. unfold MediaService_processBuffer.
  destruct (Z.ltb_spec (frameCount buffer) 512) as [Hlt|Hge].
  { exists m. split; [reflexivity|]. split; [reflexivity|]. left. auto. }
  destruct (Z.eqb_spec (QAudioFormat.channelCount (format buffer)) 2) as [Hch|Hch];
    cbn [negb].
  2:{ exists m. split; [reflexivity|]. split; [reflexivity|]. left. auto. }
  set (n := Z.to_nat (frameCount buffer)).
  assert (Hf : frameCount buffer = Z.of_nat n) by (unfold n; lia).
  assert (Hl0 : length (resize (sample m) n) = n) by apply length_resize.
  assert (Hlz : forall (g : Z -> double),
            Z.of_nat (length (map g (zrange 0 (Z.of_nat n)))) = Z.of_nat n).
  { intros g. rewrite length_map, length_zrange. lia. }
  unfold readable in Hread. rewrite Hf in *.
  destruct (QAudioFormat.sampleType (format buffer)) eqn:Et.
  - cbn [bind]. eexists. split; [reflexivity|]. split; [reflexivity|]. right.
    cbn [sample calculator]. repeat split; auto; try lia; try discriminate.
  - rewrite convert_int_ok by (auto; lia). cbn [bind].
    eexists. split; [reflexivity|]. split; [reflexivity|]. right.
    cbn [sample calculator]. repeat split; auto; try lia; try discriminate.
  - rewrite convert_int_ok by (auto; lia). cbn [bind].
    eexists. split; [reflexivity|]. split; [reflexivity|]. right.
    cbn [sample calculator]. repeat split; auto; try lia; try discriminate.
  - rewrite convert_float_ok by (auto; lia). cbn [bind].
    eexists. split; [reflexivity|]. split; [reflexivity|]. right.
    cbn [sample calculator]. repeat split; auto; try lia.
Qed.

(** X10.  [processBuffer] returns for every buffer whose frames can be
    read.  A buffer of fewer than 512 frames, or one that is not stereo,
    changes nothing and posts nothing.  Every other buffer posts exactly
    one call of [calc], with as many samples as the buffer has frames (so
    at least one full window) and the duration [durationForBytes
    (frameCount) / 1000] as an [int]. *)
Theorem processBuffer_posts_full_windows (CHAR_MAX : Z) (m : MediaService)
    (buffer : QAudioBuffer) :
  readable buffer ->
  exists m',
    MediaService_processBuffer CHAR_MAX m buffer = Ok m'
    /\ (((frameCount buffer < 512
          \/ QAudioFormat.channelCount (format buffer) <> 2) /\ m' = m)
        \/ (SPECSIZE <= Z.of_nat (length (sample m'))
            /\ Z.of_nat (length (sample m')) = frameCount buffer
            /\ posted_calls (calculator m')
               = posted_calls (calculator m)
                 ++ [(sample m',
                      narrow_int
                        (Z.quot (QAudioFormat.durationForBytes (format buffer)
                                   (frameCount buffer)) 1000))]
            /\ processor (calculator m') = processor (calculator m)
            /\ posted_signals (calculator m') = posted_signals (calculator m))).
Proof.
  intros Hread.
  destruct (@MediaService_processBuffer_ok CHAR_MAX m buffer Hread)
    as (m' & H & _ & [Hdrop | (Hge & Hch & Hlen & _ & Hcalc)]).
  - exists m'. split; [exact H|]. left. exact Hdrop.
  - exists m'. split; [exact H|]. right. rewrite Hcalc. cbn.
    rewrite SPECSIZE_eq. repeat split; auto; lia.
Qed.

Lemma processBuffer_posts_full_windows_witness :
  exists m',
    MediaService_processBuffer 127 (MediaService_new Reference.libm) silence
    = Ok m'
    /\ (((frameCount silence < 512
          \/ QAudioFormat.channelCount (format silence) <> 2)
         /\ m' = MediaService_new Reference.libm)
        \/ (SPECSIZE <= Z.of_nat (length (sample m'))
            /\ Z.of_nat (length (sample m')) = frameCount silence
            /\ posted_calls (calculator m')
               = posted_calls (calculator (MediaService_new Reference.libm))
                 ++ [(sample m',
                      narrow_int
                        (Z.quot (QAudioFormat.durationForBytes (format silence)
                                   (frameCount silence)) 1000))]
            /\ processor (calculator m')
               = processor (calculator (MediaService_new Reference.libm))
            /\ posted_signals (calculator m')
               = posted_signals (calculator (MediaService_new Reference.libm)))).
Proof.
  apply processBuffer_posts_full_windows. vm_compute. discriminate.
Defined.

(** X11.  In the [Float] case no NaN is handed to the calculator: sample
    [i] is [left / 1.00003] of frame [i], or 0 when this quotient is a
    NaN.  (An infinite sample stays infinite.) *)
Theorem float_samples_are_never_nan (CHAR_MAX : Z) (m : MediaService)
    (buffer : QAudioBuffer) :
  QAudioFormat.sampleType (format buffer) = QAudioFormat.Float ->
  512 <= frameCount buffer ->
  QAudioFormat.channelCount (format buffer) = 2 ->
  frameCount buffer <= Z.of_nat (length (data_S32F buffer)) ->
  exists m',
    MediaService_processBuffer CHAR_MAX m buffer = Ok m'
    /\ sample m' = map (float_sample (data_S32F buffer))
                       (zrange 0 (frameCount buffer))
    /\ Forall (fun x => IEEE.is_nan x = false) (sample m').
Proof.
  intros Ht Hge Hch Hdata.
  assert (Hread : readable buffer) by (unfold readable; rewrite Ht; exact Hdata).
  destruct (@MediaService_processBuffer_ok CHAR_MAX m buffer Hread)
    as (m' & H & _ & [([Hlt | Hne] & _) | (_ & _ & _ & Hs & _)]); try lia;
    try contradiction.
  exists m'. split; [exact H|]. specialize (Hs Ht). split; [exact Hs|].
  rewrite Hs. apply Forall_forall. intros x Hx.
  apply in_map_iff in Hx. destruct Hx as (i & <- & _).
  apply float_sample_not_nan.
Qed.

Lemma float_samples_are_never_nan_witness :
  exists m',
    MediaService_processBuffer 127 (MediaService_new Reference.libm) silence
    = Ok m'
    /\ sample m' = map (float_sample (data_S32F silence))
                       (zrange 0 (frameCount silence))
    /\ Forall (fun x => IEEE.is_nan x = false) (sample m').
Proof.
  apply float_samples_are_never_nan.
  - reflexivity.
  - vm_compute. discriminate.
  - reflexivity.
  - vm_compute. discriminate.
Defined.

(* ===================================================================== *)
(** * From the probe to the display                                       *)
(* ===================================================================== *)






(** X13.  The media service gets ready with its first stereo buffer of at
    least 512 frames: the call it posts is accepted by the new processor. *)
Theorem first_buffer_makes_ready (CHAR_MAX : Z) (L : Libm) (buffer : QAudioBuffer) :
  readable buffer -> 512 <= frameCount buffer ->
  QAudioFormat.channelCount (format buffer) = 2 ->
  exists m',
    MediaService_steps CHAR_MAX L (MediaService_new L)
      [audioBufferProbed buffer; processor_invoke] = Some (Ok m')
    /\ MediaService_ready L m'.
Proof.
  intros Hread Hge Hch.
  destruct (@MediaService_processBuffer_ok CHAR_MAX (MediaService_new L) buffer Hread)
    as (m1 & H & Hsp & [([Hlt | Hne] & _) | (_ & _ & Hlen & _ & Hcalc)]);
    try lia; try contradiction.
  unfold MediaService_steps. cbn [fold_left MediaService_step]. rewrite H.
  unfold on_calculator. rewrite Hcalc. cbn [FFTCalc_step calc posted_calls
    MediaService_new calculator FFTCalc_new app processor].
  destruct (@processBuffer_full_window L (BufferProcessor_new L) (sample m1)
              (narrow_int
                 (Z.quot (QAudioFormat.durationForBytes (format buffer)
                            (frameCount buffer)) 1000)))
    as (Hn1 & Hpb).
  { apply reach_new. }
  { rewrite SPECSIZE_eq. lia. }
  rewrite Hpb. cbn [bind spectrumChanged fold_left]. rewrite Hsp.
  eexists. split; [reflexivity|].
  split; [|split; [left; reflexivity | constructor]].
  unfold ready. cbn [calculator processor posted_calls posted_signals].
  split; [exact (reach_processBuffer _ _ (reach_new L) Hpb)|].
  split; [cbn [numberOfChunks]; discriminate|].
  split; constructor.
Qed.

Lemma first_buffer_makes_ready_witness :
  exists m',
    MediaService_steps 127 Reference.libm (MediaService_new Reference.libm)
      [audioBufferProbed silence; processor_invoke] = Some (Ok m')
    /\ MediaService_ready Reference.libm m'.
Proof.
  apply first_buffer_makes_ready.
  - vm_compute. discriminate.
  - vm_compute. discriminate.
  - reflexivity.
Defined.



(* ===================================================================== *)
(** * Further properties: pacing, and the inverse transform               *)
(* ===================================================================== *)

(** X14.  The pacing of a schedule.  For a buffer with [n >= 1] full
    windows and a duration of at least [n] milliseconds, the [n] ticks at
    the chosen interval take no longer than the duration, and fall short
    of it by less than [n] milliseconds. *)
Theorem schedule_fits_duration (L : Libm) (s : BufferProcessor)
    (_array : list double) (duration : Z) :
  reachable L s -> SPECSIZE <= Z.of_nat (length _array) ->
  Z.of_nat (length _array) / SPECSIZE <= duration ->
  exists s1 n i,
    processBuffer s _array duration = Ok s1
    /\ numberOfChunks s1 = Some n /\ interval s1 = Some i /\ timer s1 = Some i
    /\ n * i <= duration < n * i + n.
Proof.
  intros Hr Hlen Hd.
  destruct (processBuffer_full_window _array duration Hr Hlen) as (Hn1 & Hpb).
  set (n := Z.of_nat (length _array) / SPECSIZE) in *.
  eexists _, n, (Z.max 1 (Z.quot duration n)). split; [exact Hpb|].
  cbn [numberOfChunks interval timer]. repeat split.
  - rewrite Z.quot_div_nonneg by lia.
    pose proof (Z.mul_div_le duration n ltac:(lia)).
    assert (1 <= duration / n) by (apply Z.div_le_lower_bound; lia).
    rewrite Z.max_r by lia. lia.
  - rewrite Z.quot_div_nonneg by lia.
    pose proof (Z.mul_succ_div_gt duration n ltac:(lia)).
    assert (1 <= duration / n) by (apply Z.div_le_lower_bound; lia).
    rewrite Z.max_r by lia. lia.
Qed.

Lemma schedule_fits_duration_witness :
  exists s1 n i,
    processBuffer (BufferProcessor_new Reference.libm) (repeat D.zero 2000) 100
    = Ok s1
    /\ numberOfChunks s1 = Some n /\ interval s1 = Some i /\ timer s1 = Some i
    /\ n * i <= 100 < n * i + n.
Proof.
  apply (@schedule_fits_duration Reference.libm).
  - apply reach_new.
  - vm_compute. discriminate.
  - vm_compute. discriminate.
Defined.



(* ===================================================================== *)
(** * Further properties: frames, and the order of the spectra            *)
(* ===================================================================== *)

Lemma mapM_ext_in {A B} (f g : A -> outcome B) (l : list A) :
  (forall x, In x l -> f x = g x) -> mapM f l = mapM g l.
Proof.
  induction l as [|a l IH]; intros H; [reflexivity|].
  cbn [mapM]. rewrite (H a) by (left; reflexivity).
  rewrite IH by (intros; apply H; right; assumption). reflexivity.
Qed.

Lemma load_frame_window (window arr arr' : list double) (p : Z) :
  (forall i, p * SPECSIZE <= i < (p + 1) * SPECSIZE ->
             at_index arr i = at_index arr' i) ->
  load_frame window arr p = load_frame window arr' p.
Proof.
  intros H. unfold load_frame. apply mapM_ext_in. intros i Hi.
  apply in_zrange in Hi. rewrite (H (i + p * SPECSIZE)) by lia. reflexivity.
Qed.

(** X16.  The signals of a tick for chunk [pass] depend on the stored
    buffer only through its length and the samples of window [pass], that
    is [array[pass * SPECSIZE] .. array[(pass + 1) * SPECSIZE - 1]]: two
    buffers of the same length that agree there give the same signals.  In
    particular the samples after the last full window never show. *)
Theorem tick_reads_only_its_window (L : Libm) (s : BufferProcessor)
    (_array : list double) (p : Z) :
  pass s = Some p ->
  length _array = length (array s) ->
  (forall i, p * SPECSIZE <= i < (p + 1) * SPECSIZE ->
             at_index (array s) i = at_index _array i) ->
  signals_of (run L (with_array s _array)) = signals_of (run L s).
Proof.
  intros Hp Hlen H. unfold signals_of, run, with_array.
  cbn [array window logscale compressed running numberOfChunks interval pass timer].
  rewrite Hp. cbn [read_member bind].
  destruct (numberOfChunks s) as [n|]; [|reflexivity]. cbn [read_member bind].
  destruct (p =? n); [reflexivity|].
  rewrite Hlen.
  destruct (Z.of_nat (length (array s)) <? SPECSIZE); [reflexivity|].
  rewrite (@load_frame_window (window s) (array s) _array p H).
  destruct (load_frame (window s) _array p) as [cf|f]; [|reflexivity].
  cbn [bind].
  destruct (shape L (logscale s) (compressed s) (fft (ops := Complex_ops L) cf));
    reflexivity.
Qed.

Lemma at_index_app_l {A} (l1 l2 l3 : list A) (i : Z) :
  i < Z.of_nat (length l1) -> length l2 = length l3 ->
  at_index (l1 ++ l2) i = at_index (l1 ++ l3) i.
Proof.
  intros Hi Hl. unfold at_index. rewrite !length_app, Hl.
  destruct ((0 <=? i) && (i <? Z.of_nat (length l1 + length l3))) eqn:E;
    [|reflexivity].
  apply andb_prop in E. destruct E as (E0 & _). apply Z.leb_le in E0.
  rewrite !nth_error_app1 by lia. reflexivity.
Qed.

Lemma tick_reads_only_its_window_witness :
  signals_of
    (run Reference.libm
       (with_array
          {| array := repeat D.zero 512 ++ repeat D.zero 100;
             window := window_table Reference.libm;
             logscale := logscale_table Reference.libm;
             compressed := true; running := false;
             numberOfChunks := Some 1; interval := Some 1000;
             pass := Some 0; timer := Some 1000 |}
          (repeat D.zero 512 ++ repeat D.one 100)))
  = signals_of
      (run Reference.libm
         {| array := repeat D.zero 512 ++ repeat D.zero 100;
            window := window_table Reference.libm;
            logscale := logscale_table Reference.libm;
            compressed := true; running := false;
            numberOfChunks := Some 1; interval := Some 1000;
            pass := Some 0; timer := Some 1000 |}).
Proof.
  apply (@tick_reads_only_its_window Reference.libm _ _ 0).
  - reflexivity.
  - reflexivity.
  - intros i Hi. cbn [array]. apply at_index_app_l.
    + rewrite repeat_length. rewrite SPECSIZE_eq in Hi. lia.
    + rewrite !repeat_length. reflexivity.
Defined.

Lemma spectra_of_app (a b : list signal) :
  spectra_of (a ++ b) = spectra_of a ++ spectra_of b.
Proof. unfold spectra_of. apply flat_map_app. Qed.

Lemma FFTCalc_step_fifo (L : Libm) (c c' : FFTCalc) (e : event)
    (out : list (list double)) :
  FFTCalc_step L c e = Ok (c', out) ->
  spectra_of (posted_signals c)
  ++ match e, run L (processor c) with
     | ev_timeout, Ok (_, sigs) => spectra_of sigs
     | _, _ => []
     end
  = out ++ spectra_of (posted_signals c').
Proof.
  destruct e as [_array duration| | |]; cbn [FFTCalc_step]; intros H.
  - injection H as <- <-. cbn. rewrite app_nil_r. reflexivity.
  - destruct (posted_calls c) as [|[a d] rest].
    + injection H as <- <-. rewrite app_nil_r. reflexivity.
    + destruct (processBuffer (processor c) a d); [|discriminate].
      cbn [bind] in H. injection H as <- <-. cbn. rewrite app_nil_r. reflexivity.
  - destruct (run L (processor c)) as [[s' sigs]|f]; [|discriminate].
    cbn [bind fst snd] in H. injection H as <- <-.
    cbn [posted_signals app]. symmetry. apply spectra_of_app.
  - destruct (posted_signals c) as [|sig rest] eqn:Es.
    + injection H as <- <-. rewrite Es, app_nil_r. reflexivity.
    + destruct sig as [spectrum|].
      * unfold setSpectrum in H. injection H as <- <-.
        cbn. rewrite app_nil_r. reflexivity.
      * injection H as <- <-. cbn. rewrite app_nil_r. reflexivity.
Qed.

(** X17.  FFTCalc forwards the spectra of its processor first in, first
    out: at any time, the spectra that were queued at the start followed by
    those the processor has emitted since are the spectra FFTCalc has
    emitted followed by those still queued.  None is dropped, duplicated
    or reordered. *)
Theorem spectra_are_forwarded_in_order (L : Libm) (es : list event) (c : FFTCalc) :
  match FFTCalc_steps L c es with
  | Ok (c', out) =>
      spectra_of (posted_signals c) ++ produced L c es
      = out ++ spectra_of (posted_signals c')
  | Fault _ => True
  end.
Proof.
  revert c. induction es as [|e es IH]; intros c.
  - cbn. rewrite !app_nil_r. reflexivity.
  - change (FFTCalc_steps L c (e :: es))
      with (r <- FFTCalc_step L c e ;;
            r' <- FFTCalc_steps L (fst r) es ;;
            Ok (fst r', snd r ++ snd r')).
    cbn [produced].
    destruct (FFTCalc_step L c e) as [[c1 out1]|f] eqn:E1; [|exact I].
    cbn [bind fst snd]. specialize (IH c1).
    destruct (FFTCalc_steps L c1 es) as [[c2 out2]|f]; [|exact I].
    cbn [bind fst snd].
    apply FFTCalc_step_fifo in E1.
    rewrite app_assoc, E1, <- !app_assoc. f_equal. exact IH.
Qed.

Module ExactInverse.
Import Exact ExactTransform ExactRoundTrip.
Local Open Scope R_scope.

Local Ltac cr_unfold :=
  cbn [cadd csub cmul cdiv cconj czero of_size CR_ops fst snd] in *.




End ExactInverse.



(* ===================================================================== *)
(** * Further properties: silence                                         *)
(* ===================================================================== *)

Lemma mapM_const {A B} (f : A -> outcome B) (y : B) (l : list A) :
  (forall x, In x l -> f x = Ok y) -> mapM f l = Ok (repeat y (length l)).
Proof.
  induction l as [|a l IH]; intros H; [reflexivity|].
  cbn [mapM]. rewrite (H a) by (left; reflexivity). cbn [bind].
  rewrite IH by (intros; apply H; right; assumption). reflexivity.
Qed.

Lemma amplitude_zero (L : Libm) (c : Complex) :
  is_zero (c_abs L c) = true -> amplitude L c = D.zero.
Proof.
  unfold amplitude. destruct (c_abs L c) as [s| | |]; try discriminate.
  intros _. destruct s; reflexivity.
Qed.

Lemma amplitudes_silent (L : Libm) (complexFrame : list Complex) :
  SPECSIZE / 2 <= Z.of_nat (length complexFrame) ->
  forallb (fun c => is_zero (c_abs L c))
          (firstn (Z.to_nat (SPECSIZE / 2)) complexFrame) = true ->
  silent (amplitudes L complexFrame).
Proof.
  intros Hlen Hz j Hj. change (SPECSIZE / 2) with 256 in *.
  change (Z.to_nat 256) with 256%nat in Hz.
  assert (Hl : length (amplitudes L complexFrame) = length complexFrame).
  { unfold amplitudes. rewrite length_app, length_map, length_firstn, length_skipn.
    lia. }
  rewrite (@at_index_nth _ (amplitudes L complexFrame) j (D.zero, D.zero))
    by (rewrite Hl; lia).
  eexists. split; [reflexivity|].
  unfold amplitudes. change (Z.to_nat (SPECSIZE / 2)) with 256%nat.
  rewrite app_nth1 by (rewrite length_map, length_firstn; lia).
  rewrite (nth_indep _ _ (amplitude L (D.zero, D.zero), D.zero))
    by (rewrite length_map, length_firstn; lia).
  pose proof (map_nth (fun c => (amplitude L c, D.zero))
                (firstn 256 complexFrame) (D.zero, D.zero) (Z.to_nat j)) as E.
  cbv beta in E. rewrite E. cbn [fst].
  apply amplitude_zero.
  rewrite forallb_forall in Hz. apply Hz. apply nth_In.
  rewrite length_firstn. lia.
Qed.

Lemma accumulate_silent (complexFrame : list Complex) (j : Z) (w : option double)
    (reads : list Z) :
  silent complexFrame -> 0 <= j < SPECSIZE / 2 ->
  match w with Some w => fin_nonneg w = true | None => True end ->
  accumulate complexFrame j w (@pair float (list Z) F.zero reads)
  = Ok (@pair float (list Z) F.zero (reads ++ [j])).
Proof.
  intros Hs Hj Hw. destruct (Hs j Hj) as (c & Hat & Hc).
  unfold accumulate. rewrite Hat. cbn [bind fst snd]. rewrite Hc.
  destruct w as [w|]; [|reflexivity].
  destruct w as [s|s| |s m e]; try discriminate.
  - destruct s; reflexivity.
  - destruct s; [discriminate | reflexivity].
Qed.

Lemma accumulate_silent_range (complexFrame : list Complex) (ks : list Z) :
  silent complexFrame ->
  Forall (fun k => 0 <= k < SPECSIZE / 2) ks ->
  forall reads : list Z,
    fold_left (fun acc k => s <- acc ;; accumulate complexFrame k None s)
              ks (Ok (@pair float (list Z) F.zero reads))
    = Ok (@pair float (list Z) F.zero (reads ++ ks)).
Proof.
  intros Hs. induction 1 as [|k ks Hk Hks IH]; intros reads.
  - cbn. rewrite app_nil_r. reflexivity.
  - cbn [fold_left].
    change (s <- Ok (@pair float (list Z) F.zero reads) ;;
            accumulate complexFrame k None s)
      with (accumulate complexFrame k None (@pair float (list Z) F.zero reads)).
    rewrite (@accumulate_silent complexFrame k None reads Hs Hk I).
    rewrite IH. rewrite <- app_assoc. reflexivity.
Qed.

Lemma bucket_silent (logscale : list double) (complexFrame : list Complex) (i : Z)
    (lo hi : double) :
  silent complexFrame ->
  at_index logscale i = Ok lo -> at_index logscale (i + 1) = Ok hi ->
  bucket_plan lo hi ->
  exists reads, bucket logscale complexFrame i = Ok (@pair float (list Z) F.zero reads).
Proof.
  intros Hs Hlo Hhi (a & b & Ha & Hb & Har & Hbr & Hw0 & Hw1 & Hw3).
  unfold bucket. rewrite Hlo, Hhi. cbn [bind]. rewrite Ha, Hb. cbn [bind].
  change (F.of_int 0) with F.zero.
  destruct (Z.ltb_spec b a) as [Hba|Hba].
  - rewrite (@accumulate_silent complexFrame b (Some (D.sub hi lo)) [] Hs Hbr Hw0).
    eexists. reflexivity.
  - assert (Ha0 : (a >? 0) = true) by (apply Z.gtb_lt; lia). rewrite Ha0.
    rewrite (@accumulate_silent complexFrame (a - 1)
               (Some (D.sub (D.of_int a) lo)) [] Hs ltac:(lia) Hw1).
    cbn [bind].
    assert (Hks : Forall (fun k => 0 <= k < SPECSIZE / 2) (zrange a b)).
    { apply Forall_forall. intros k Hk. apply in_zrange in Hk. lia. }
    rewrite (@accumulate_silent_range complexFrame (zrange a b) Hs Hks).
    cbn [bind].
    destruct (Z.ltb_spec b (SPECSIZE / 2)) as [Hb2|Hb2]; [|lia].
    rewrite (@accumulate_silent complexFrame b (Some (D.sub hi (D.of_int b)))
               _ Hs Hbr Hw3).
    eexists. reflexivity.
Qed.

Lemma decibel_zero (L : Libm) :
  log10f L F.zero = S754_infinity true -> decibel L F.zero = D.zero.
Proof.
  intros H. unfold decibel.
  change (F.mul F.zero (F.div (F.of_int SPECSIZE) (F.of_int 24))) with F.zero.
  rewrite H. reflexivity.
Qed.

(** X19.  Silence.  When the first [SPECSIZE/2] magnitudes of the
    transformed frame are zero, every bucket sum is [+0], [log10f] of it is
    minus infinity (as C requires of [log10f (0)]), and the value
    [1 + 20 * (-inf) / 40 = -inf] is clamped to 0: the spectrum consists of
    [SPECSIZE/2] zeros, and no NaN arises on the way. *)
Theorem silent_frame_gives_zero_spectrum (L : Libm) (logscale : list double)
    (complexFrame : list Complex) :
  log10f L F.zero = S754_infinity true ->
  logscale_accurate logscale = true ->
  SPECSIZE / 2 <= Z.of_nat (length complexFrame) ->
  forallb (fun c => is_zero (c_abs L c))
          (firstn (Z.to_nat (SPECSIZE / 2)) complexFrame) = true ->
  shape L logscale true complexFrame
  = Ok (repeat D.zero (Z.to_nat (SPECSIZE / 2))).
Proof.
  intros Hlog Htab Hlen Hz. unfold shape.
  pose proof (amplitudes_silent L complexFrame Hlen Hz) as Hs.
  pose proof (accurate_table_plan _ Htab) as Hplan.
  rewrite (@mapM_const _ _ _ D.zero).
  - rewrite length_zrange. reflexivity.
  - intros i Hi. apply in_zrange in Hi.
    destruct (Hplan i Hi) as (lo & hi & Hlo & Hhi & Hp).
    destruct (@bucket_silent logscale _ i lo hi Hs Hlo Hhi Hp) as (reads & E).
    rewrite E. cbn [bind fst]. rewrite (decibel_zero L Hlog). reflexivity.
Qed.

Lemma silent_frame_gives_zero_spectrum_witness :
  shape Reference.libm (logscale_table Reference.libm) true
    (repeat (D.zero, D.zero) 512)
  = Ok (repeat D.zero (Z.to_nat (SPECSIZE / 2))).
Proof.
  apply silent_frame_gives_zero_spectrum.
  - reflexivity.
  - exact reference_logscale_accurate.
  - vm_compute. discriminate.
  - vm_compute. reflexivity.
Defined.
